(** * Client runtime of the RAG web front end

  A shallow embedding of the stateful core of the web client
  (web/src/lib/storage.ts, web/src/lib/api.ts, web/src/lib/sse.ts):

  - [Chat]   : the conversation store [useChat];
  - [Ingest] : the ingestion queue store [useIngest];
  - [Api]    : the header construction of [ApiClient] and of the
               streaming client;
  - [SSE]    : the streaming client [SSEClient] (line parser, retry and
               cancellation).

  JavaScript strings are modelled by [string]; only [length], [slice],
  [startsWith], [split] on a one-character separator and equality are
  used, all on ASCII separators and prefixes, so a character of the
  model stands for one code unit.  The clock ([Date.now()]) and the
  random source ([Math.random()]) are inputs of the operations that read
  them. *)

From Stdlib Require Import ZArith QArith Qround Lia Ascii.
From stdpp Require Import base option list strings pretty gmap.

Local Open Scope Z_scope.
Local Open Scope string_scope.
Local Open Scope list_scope.

(** ** The conversation store *)

Module Chat.

Section Store.

(** [Citation] and [RetrievalDebug] are plain data carried through the
    store; nothing in the store inspects them. *)
Context {Citation RetrievalDebug : Type}.

Inductive Role := user | assistant.

#[global] Instance Role_eq_dec : EqDecision Role.
Proof. solve_decision. Defined.

Record Message := mkMessage {
  id : string;
  role : Role;
  content : string;
  timestamp : Z;
  citations : option (list Citation);
  retrievalDebug : option RetrievalDebug;
  isStreaming : option bool;
  error : option string;
}.

(** [Omit<Message, 'id' | 'timestamp'>] *)
Record NewMessage := mkNewMessage {
  new_role : Role;
  new_content : string;
  new_citations : option (list Citation);
  new_retrievalDebug : option RetrievalDebug;
  new_isStreaming : option bool;
  new_error : option string;
}.

(** [Partial<Message>]: a key may be absent ([None]); an optional field
    may also be present with the value [undefined] ([Some None]). *)
Record MessageUpdate := mkMessageUpdate {
  upd_id : option string;
  upd_role : option Role;
  upd_content : option string;
  upd_timestamp : option Z;
  upd_citations : option (option (list Citation));
  upd_retrievalDebug : option (option RetrievalDebug);
  upd_isStreaming : option (option bool);
  upd_error : option (option string);
}.

Record Conversation := mkConversation {
  conv_id : string;
  title : string;
  messages : list Message;
  createdAt : Z;
  updatedAt : Z;
}.

Record ChatState := mkChatState {
  conversations : list Conversation;
  currentConversationId : option string;
  isLoading : bool;
  chat_error : option string;
}.

Definition initial : ChatState :=
  {| conversations := []; currentConversationId := None;
     isLoading := false; chat_error := None |}.

(** What a call hands back to its caller: a function without a [return]
    statement yields [undefined]. *)
Inductive Returned := Undefined | ReturnedString (s : string).

Definition default_title : string := "New Conversation".

(** [s.slice(0, n)] for [0 <= n]. *)
Definition slice0 (n : nat) (s : string) : string := String.substring 0 n s.

(** [`conv_${Date.now()}_${random}`] and [`msg_${Date.now()}_${random}`];
    [rnd] is [Math.random().toString(36).substr(2, 9)]. *)
Definition fresh_id (prefix : string) (now : Z) (rnd : string) : string :=
  prefix +:+ pretty now +:+ "_" +:+ rnd.

(** [set] with only some keys replaces those keys. *)
Definition set_conversations (cs : list Conversation) (st : ChatState) : ChatState :=
  {| conversations := cs;
     currentConversationId := currentConversationId st;
     isLoading := isLoading st;
     chat_error := chat_error st |}.

(** [createConversation(title = 'New Conversation')]; the three clock
    reads are [now_id], [now_created], [now_updated]. *)
Definition createConversation (title_arg : option string)
    (now_id now_created now_updated : Z) (rnd : string)
    (st : ChatState) : ChatState * Returned :=
  let cid := fresh_id "conv_" now_id rnd in
  let conversation :=
    {| conv_id := cid;
       title := default default_title title_arg;
       messages := [];
       createdAt := now_created;
       updatedAt := now_updated |} in
  ({| conversations := conversation :: conversations st;
      currentConversationId := Some cid;
      isLoading := isLoading st;
      chat_error := chat_error st |},
   ReturnedString cid).

Definition deleteConversation (cid : string) (st : ChatState) : ChatState :=
  let newConversations :=
    filter (fun conv => conv_id conv ≠ cid) (conversations st) in
  let newCurrentId :=
    if decide (currentConversationId st = Some cid)
    then (match newConversations with
          | c :: _ => if decide (conv_id c = "") then None else Some (conv_id c)
          | [] => None
          end)
    else currentConversationId st in
  {| conversations := newConversations;
     currentConversationId := newCurrentId;
     isLoading := isLoading st;
     chat_error := chat_error st |}.

Definition derive_title (c : string) : string :=
  slice0 50 c +:+ (if decide (50 < String.length c)%nat then "..." else "").

(** The object literal built for a matching conversation in
    [addMessage]. *)
Definition append_message (newMessage : Message) (message : NewMessage)
    (now_updated : Z) (conv : Conversation) : Conversation :=
  {| conv_id := conv_id conv;
     title :=
       if decide (title conv = default_title ∧ new_role message = user)
       then derive_title (new_content message)
       else title conv;
     messages := messages conv ++ [newMessage];
     createdAt := createdAt conv;
     updatedAt := now_updated |}.

Definition make_message (message : NewMessage) (now_id now_ts : Z)
    (rnd : string) : Message :=
  {| id := fresh_id "msg_" now_id rnd;
     role := new_role message;
     content := new_content message;
     timestamp := now_ts;
     citations := new_citations message;
     retrievalDebug := new_retrievalDebug message;
     isStreaming := new_isStreaming message;
     error := new_error message |}.

(** [addMessage(conversationId, message)].  The clock is read for the id,
    for the timestamp, and inside [set] for [updatedAt].  The arrow
    function has a block body without [return]. *)
Definition addMessage (conversationId : string) (message : NewMessage)
    (now_id now_ts now_updated : Z) (rnd : string)
    (st : ChatState) : ChatState * Returned :=
  let newMessage := make_message message now_id now_ts rnd in
  (set_conversations
     (map (fun conv =>
             if decide (conv_id conv = conversationId)
             then append_message newMessage message now_updated conv
             else conv)
          (conversations st))
     st,
   Undefined).

(** [{ ...msg, ...updates }] *)
Definition merge_message (msg : Message) (updates : MessageUpdate) : Message :=
  {| id := default (id msg) (upd_id updates);
     role := default (role msg) (upd_role updates);
     content := default (content msg) (upd_content updates);
     timestamp := default (timestamp msg) (upd_timestamp updates);
     citations := default (citations msg) (upd_citations updates);
     retrievalDebug := default (retrievalDebug msg) (upd_retrievalDebug updates);
     isStreaming := default (isStreaming msg) (upd_isStreaming updates);
     error := default (error msg) (upd_error updates) |}.

Definition update_in (messageId : string) (updates : MessageUpdate)
    (now_updated : Z) (conv : Conversation) : Conversation :=
  {| conv_id := conv_id conv;
     title := title conv;
     messages :=
       map (fun msg =>
              if decide (id msg = messageId)
              then merge_message msg updates
              else msg)
           (messages conv);
     createdAt := createdAt conv;
     updatedAt := now_updated |}.

(** [updateMessage(conversationId, messageId, updates)] *)
Definition updateMessage (conversationId messageId : string)
    (updates : MessageUpdate) (now_updated : Z)
    (st : ChatState) : ChatState :=
  set_conversations
    (map (fun conv =>
            if decide (conv_id conv = conversationId)
            then update_in messageId updates now_updated conv
            else conv)
         (conversations st))
    st.

(** [conversations.find(conv => conv.id === id) || null] *)
Definition getConversation (cid : string) (st : ChatState) : option Conversation :=
  find (fun conv => bool_decide (conv_id conv = cid)) (conversations st).

Definition getCurrentConversation (st : ChatState) : option Conversation :=
  match currentConversationId st with
  | Some cid => getConversation cid st
  | None => None
  end.

(** [clearConversations()] *)
Definition clearConversations (st : ChatState) : ChatState :=
  {| conversations := [];
     currentConversationId := None;
     isLoading := isLoading st;
     chat_error := chat_error st |}.

(** [setCurrentConversation(id)] *)
Definition setCurrentConversation (cid : option string) (st : ChatState) : ChatState :=
  {| conversations := conversations st;
     currentConversationId := cid;
     isLoading := isLoading st;
     chat_error := chat_error st |}.

(** [setLoading(isLoading)] and [setError(error)] *)
Definition setLoading (b : bool) (st : ChatState) : ChatState :=
  {| conversations := conversations st;
     currentConversationId := currentConversationId st;
     isLoading := b;
     chat_error := chat_error st |}.

Definition setError (e : option string) (st : ChatState) : ChatState :=
  {| conversations := conversations st;
     currentConversationId := currentConversationId st;
     isLoading := isLoading st;
     chat_error := e |}.

(** *** The chat page sending a message

    The store calls of [handleSendMessage] of the chat page, from
    [const message = input.trim()] to the [try]: [message] is that
    trimmed, non-empty text, and [currentConversationId] is read from the
    store. *)

(** The clock readings and random texts of one [createConversation] or
    [addMessage] call. *)
Record Readings := mkReadings {
  r_now_id : Z;
  r_now_second : Z;
  r_now_updated : Z;
  r_rnd : string;
}.

Definition user_message (message : string) : NewMessage :=
  {| new_role := user; new_content := message;
     new_citations := None; new_retrievalDebug := None;
     new_isStreaming := None; new_error := None |}.

Definition placeholder_message : NewMessage :=
  {| new_role := assistant; new_content := EmptyString;
     new_citations := None; new_retrievalDebug := None;
     new_isStreaming := Some true; new_error := None |}.

Record Sending := mkSending {
  sent_store : ChatState;
  conversationId : string;
  assistantMessageId : string;
}.

Definition handleSendMessage_begin (message : string)
    (creating for_user for_placeholder : Readings)
    (now_assistant : Z) (rnd_assistant : string)
    (st : ChatState) : Sending :=
  let '(st, cid) :=
    match currentConversationId st with
    | Some c =>
        if decide (c = EmptyString)
        then (fst (createConversation None (r_now_id creating)
                     (r_now_second creating) (r_now_updated creating)
                     (r_rnd creating) st),
              fresh_id "conv_" (r_now_id creating) (r_rnd creating))
        else (st, c)
    | None =>
        (fst (createConversation None (r_now_id creating)
                (r_now_second creating) (r_now_updated creating)
                (r_rnd creating) st),
         fresh_id "conv_" (r_now_id creating) (r_rnd creating))
    end in
  let st := fst (addMessage cid (user_message message)
                   (r_now_id for_user) (r_now_second for_user)
                   (r_now_updated for_user) (r_rnd for_user) st) in
  let amid := fresh_id "msg_" now_assistant rnd_assistant in
  let st := fst (addMessage cid placeholder_message
                   (r_now_id for_placeholder) (r_now_second for_placeholder)
                   (r_now_updated for_placeholder) (r_rnd for_placeholder) st) in
  let st := setError None (setLoading true st) in
  {| sent_store := st; conversationId := cid; assistantMessageId := amid |}.

End Store.

End Chat.

Arguments Chat.Message : clear implicits.
Arguments Chat.NewMessage : clear implicits.
Arguments Chat.MessageUpdate : clear implicits.
Arguments Chat.Conversation : clear implicits.
Arguments Chat.ChatState : clear implicits.
Arguments Chat.Sending : clear implicits.

(** ** The ingestion queue *)

Module Ingest.

Inductive ItemType := file | url.
Inductive Status := pending | uploading | success | error.

#[global] Instance ItemType_eq_dec : EqDecision ItemType.
Proof. solve_decision. Defined.

#[global] Instance Status_eq_dec : EqDecision Status.
Proof. solve_decision. Defined.

(** [IngestResponse] of api.ts. *)
Record Ingested := mkIngested {
  filename : string;
  doc_id : string;
  chunks : Z;
  source : string;
}.

Record IngestResponse := mkIngestResponse {
  ingested : list Ingested;
  skipped : list string;
  errors : list string;
}.

(** [progress] is a JavaScript number; the store only ever writes the
    integers 0 and 100 into it, so it is an integer here. *)
Record IngestItem := mkIngestItem {
  id : string;
  name : string;
  type : ItemType;
  size : option Z;
  status : Status;
  progress : Z;
  result : option IngestResponse;
  item_error : option string;
}.

Record IngestState := mkIngestState {
  items : list IngestItem;
  isUploading : bool;
}.

Definition initial : IngestState := {| items := []; isUploading := false |}.

Definition set_items (l : list IngestItem) (st : IngestState) : IngestState :=
  {| items := l; isUploading := isUploading st |}.

(** The part of a browser [File] the store reads. *)
Record File := mkFile { file_name : string; file_size : Z }.

(** One evaluation of [`${Date.now()}_${Math.random().toString(36).substr(2, 9)}`]. *)
Record Stamp := mkStamp { now : Z; rnd : string }.

Definition stamp_text (s : Stamp) : string := pretty (now s) +:+ "_" +:+ rnd s.

Definition new_file_item (f : File) (s : Stamp) : IngestItem :=
  {| id := "file_" +:+ stamp_text s;
     name := file_name f;
     type := file;
     size := Some (file_size f);
     status := pending;
     progress := 0;
     result := None;
     item_error := None |}.

Definition new_url_item (u : string) (s : Stamp) : IngestItem :=
  {| id := "url_" +:+ stamp_text s;
     name := u;
     type := url;
     size := None;
     status := pending;
     progress := 0;
     result := None;
     item_error := None |}.

(** [files.map(file => ...)] evaluates the id template once per file; the
    k-th evaluation is the k-th stamp. *)
Fixpoint map_stamped {A : Type} (mk : A -> Stamp -> IngestItem)
    (l : list A) (stamps : list Stamp) : list IngestItem :=
  match l, stamps with
  | a :: l', s :: stamps' => mk a s :: map_stamped mk l' stamps'
  | _, _ => []
  end.

(** [addFiles(files)]; [stamps] has one entry per file. *)
Definition addFiles (files : list File) (stamps : list Stamp)
    (st : IngestState) : IngestState :=
  set_items (items st ++ map_stamped new_file_item files stamps) st.

Definition addUrls (urls : list string) (stamps : list Stamp)
    (st : IngestState) : IngestState :=
  set_items (items st ++ map_stamped new_url_item urls stamps) st.

Definition removeItem (i : string) (st : IngestState) : IngestState :=
  set_items (filter (fun item => id item ≠ i) (items st)) st.

Definition clearItems (st : IngestState) : IngestState :=
  set_items [] st.

(** [items.find(item => item.id === id)] *)
Definition find_item (i : string) (l : list IngestItem) : option IngestItem :=
  find (fun item => bool_decide (id item = i)) l.

(** The three object spreads of [uploadItem] and the one of [retryItem]. *)
Definition mark_uploading (item : IngestItem) : IngestItem :=
  {| id := id item; name := name item; type := type item; size := size item;
     status := uploading; progress := 0;
     result := result item; item_error := item_error item |}.

Definition mark_success (r : IngestResponse) (item : IngestItem) : IngestItem :=
  {| id := id item; name := name item; type := type item; size := size item;
     status := success; progress := 100;
     result := Some r; item_error := item_error item |}.

Definition mark_error (msg : string) (item : IngestItem) : IngestItem :=
  {| id := id item; name := name item; type := type item; size := size item;
     status := error; progress := 0;
     result := result item; item_error := Some msg |}.

Definition mark_pending (item : IngestItem) : IngestItem :=
  {| id := id item; name := name item; type := type item; size := size item;
     status := pending; progress := 0;
     result := result item; item_error := None |}.

(** [state.items.map(item => item.id === id ? f(item) : item)] *)
Definition update_items (i : string) (f : IngestItem -> IngestItem)
    (st : IngestState) : IngestState :=
  set_items (map (fun item => if decide (id item = i) then f item else item)
                 (items st)) st.

(** A value caught by [catch (error)]. *)
Inductive Thrown := JsError (message : string) | NonError.

(** [error instanceof Error ? error.message : 'Unknown error'] *)
Definition error_message (e : Thrown) : string :=
  match e with
  | JsError m => m
  | NonError => "Unknown error"
  end.

(** The settled value of an awaited promise. *)
Inductive Settled (A : Type) := Fulfilled (a : A) | Rejected (e : Thrown).
Arguments Fulfilled {A} a.
Arguments Rejected {A} e.

(** Asynchronous store code: reads ([get()]), writes ([set(...)]) and the
    two suspension points of this store, [await new Promise(resolve =>
    setTimeout(resolve, ms))] and [await apiClient.ingestUrl(url)]. *)
Inductive Prog : Type :=
| Return
| GetState (k : IngestState -> Prog)
| SetState (f : IngestState -> IngestState) (k : Prog)
| AwaitTimeout (ms : Z) (k : Prog)
| AwaitIngestUrl (u : string) (k : Settled IngestResponse -> Prog).

(** The result the file branch builds in place of a backend answer. *)
Definition simulated_result (item : IngestItem) : IngestResponse :=
  {| ingested := [ {| filename := name item; doc_id := name item;
                      chunks := 1; source := name item |} ];
     skipped := [];
     errors := [] |}.

(** The code after the awaits of [uploadItem]: the success update, or the
    [catch] block. *)
Definition upload_done (i : string) (r : IngestResponse) : Prog :=
  SetState (update_items i (mark_success r)) Return.

Definition upload_failed (i : string) (e : Thrown) : Prog :=
  SetState (update_items i (mark_error (error_message e))) Return.

Definition after_ingestUrl (i : string) (r : Settled IngestResponse) : Prog :=
  match r with
  | Fulfilled res => upload_done i res
  | Rejected e => upload_failed i e
  end.

(** The [try] block of [uploadItem], for the item found before it. *)
Definition upload_body (i : string) (item : IngestItem) : Prog :=
  match type item with
  | file => AwaitTimeout 1000 (upload_done i (simulated_result item))
  | url => AwaitIngestUrl (name item) (after_ingestUrl i)
  end.

Definition uploadItem (i : string) : Prog :=
  GetState (fun st =>
    match find_item i (items st) with
    | None => Return
    | Some item =>
        if decide (status item = pending)
        then SetState (update_items i mark_uploading) (upload_body i item)
        else Return
    end).

(** [retryItem]: its last statement awaits [get().uploadItem(id)]. *)
Definition retryItem (i : string) : Prog :=
  GetState (fun st =>
    match find_item i (items st) with
    | None => Return
    | Some item =>
        if decide (status item = error)
        then SetState (update_items i mark_pending) (uploadItem i)
        else Return
    end).

(** A call parked at an [await]. *)
Inductive Suspended :=
| WaitTimeout (ms : Z) (k : Prog)
| WaitIngestUrl (u : string) (k : Settled IngestResponse -> Prog).

(** The outcome of running code up to its next suspension point: the
    successive stores published by [set], the store reached, and the
    parked continuation if the code did not finish. *)
Record Outcome := mkOutcome {
  published : list IngestState;
  final : IngestState;
  parked : option Suspended;
}.

Fixpoint run (p : Prog) (st : IngestState) : Outcome :=
  match p with
  | Return => {| published := []; final := st; parked := None |}
  | GetState k => run (k st) st
  | SetState f k =>
      let o := run k (f st) in
      {| published := f st :: published o; final := final o; parked := parked o |}
  | AwaitTimeout ms k =>
      {| published := []; final := st; parked := Some (WaitTimeout ms k) |}
  | AwaitIngestUrl u k =>
      {| published := []; final := st; parked := Some (WaitIngestUrl u k) |}
  end.

(** [Math.round(a / b)] for integers [a] and [0 < b]: the nearest
    integer, halves rounded up. *)
Definition Math_round (q : Q) : Z := Qfloor (q + (1 # 2)).

(** [items.reduce((sum, item) => sum + item.progress, 0)] *)
Definition totalProgress (l : list IngestItem) : Z :=
  fold_left (fun sum item => sum + progress item) l 0.

Definition getTotalProgress (st : IngestState) : Z :=
  if decide (length (items st) = 0%nat) then 0
  else Math_round (inject_Z (totalProgress (items st))
                   / inject_Z (Z.of_nat (length (items st)))).

Definition getPendingItems (st : IngestState) : list IngestItem :=
  filter (fun item => status item = pending) (items st).

Definition getSuccessfulItems (st : IngestState) : list IngestItem :=
  filter (fun item => status item = success) (items st).

Definition getFailedItems (st : IngestState) : list IngestItem :=
  filter (fun item => status item = error) (items st).

(** *** The queue with its calls in flight

    The store together with the calls parked at an [await].  A parked
    [uploadItem] that was started by an [uploadAll] carries the number of
    that [uploadAll]; [batches] counts, for each [uploadAll] so far, the
    uploads it still waits for in its [Promise.all]. *)
Record Task := mkTask {
  waiting : Suspended;
  batch : option nat;
}.

Record System := mkSystem {
  store : IngestState;
  tasks : list Task;
  batches : list nat;
}.

Definition boot : System := {| store := initial; tasks := []; batches := [] |}.

(** [set({ isUploading: b })] *)
Definition set_isUploading (b : bool) (st : IngestState) : IngestState :=
  {| items := items st; isUploading := b |}.

Definition on_store (f : IngestState -> IngestState) (sys : System) : System :=
  {| store := f (store sys); tasks := tasks sys; batches := batches sys |}.

(** A call has ended.  If it belonged to an [uploadAll], that one waits
    for one upload less, and runs its [finally] when it waits for none. *)
Definition ended (tag : option nat) (sys : System) : System :=
  match tag with
  | None => sys
  | Some b =>
      let remaining := Nat.pred (default 0%nat (batches sys !! b)) in
      {| store := if decide (remaining = 0%nat)
                  then set_isUploading false (store sys)
                  else store sys;
         tasks := tasks sys;
         batches := <[b := remaining]> (batches sys) |}
  end.

(** Run a call (or a resumed continuation) to its next suspension. *)
Definition exec (p : Prog) (tag : option nat) (sys : System) : System :=
  let o := run p (store sys) in
  match parked o with
  | Some s =>
      {| store := final o;
         tasks := tasks sys ++ [ {| waiting := s; batch := tag |} ];
         batches := batches sys |}
  | None =>
      ended tag {| store := final o; tasks := tasks sys; batches := batches sys |}
  end.

(** The parked call at position [n] is taken up again. *)
Definition resumed (n : nat) (sys : System) : System :=
  {| store := store sys; tasks := delete n (tasks sys); batches := batches sys |}.

(** [uploadAll()]: the [map] starts the uploads one after the other, each
    running to its first [await]. *)
Definition uploadAll (sys : System) : System :=
  let pendingItems :=
    filter (fun item => status item = pending) (items (store sys)) in
  if decide (length pendingItems = 0%nat) then sys
  else
    let b := length (batches sys) in
    fold_left (fun s item => exec (uploadItem (id item)) (Some b) s)
      pendingItems
      {| store := set_isUploading true (store sys);
         tasks := tasks sys;
         batches := batches sys ++ [length pendingItems] |}.

(** A step is a call made by the page, or the settling of what a parked
    call waits for. *)
Inductive step : System -> System -> Prop :=
| step_addFiles files stamps sys :
    step sys (on_store (addFiles files stamps) sys)
| step_addUrls urls stamps sys :
    step sys (on_store (addUrls urls stamps) sys)
| step_removeItem i sys :
    step sys (on_store (removeItem i) sys)
| step_clearItems sys :
    step sys (on_store clearItems sys)
| step_uploadAll sys :
    step sys (uploadAll sys)
| step_uploadItem i sys :
    step sys (exec (uploadItem i) None sys)
| step_retryItem i sys :
    step sys (exec (retryItem i) None sys)
| step_timeout n ms k tag sys :
    tasks sys !! n = Some {| waiting := WaitTimeout ms k; batch := tag |} ->
    step sys (exec k tag (resumed n sys))
| step_ingestUrl n u k tag r sys :
    tasks sys !! n = Some {| waiting := WaitIngestUrl u k; batch := tag |} ->
    step sys (exec (k r) tag (resumed n sys)).

Inductive reachable : System -> Prop :=
| reachable_boot : reachable boot
| reachable_step sys sys' : reachable sys -> step sys sys' -> reachable sys'.

End Ingest.

(** ** Request headers *)

Module Api.

(** The two fields of the settings store that the request code reads. *)
Record Settings := mkSettings {
  apiBaseUrl : string;
  apiKey : string;
}.

(** [defaultSettings] of the settings store. *)
Definition defaultSettings : Settings :=
  {| apiBaseUrl := ""; apiKey := "changeme" |}.

(** A string in a condition: the empty string is the only falsy one. *)
Definition truthy (s : string) : bool := negb (String.eqb s "").

(** [a || b] on strings. *)
Definition or_else (a b : string) : string := if truthy a then a else b.

(** [ApiClient.getHeaders] *)
Definition getHeaders (settings : Settings) : gmap string string :=
  let headers : gmap string string := {[ "Content-Type" := "application/json" ]} in
  let apiKey := or_else (apiKey settings) "changeme" in
  <[ "x-api-key" := apiKey ]> headers.

(** The [headers] object built in [ApiClient.ingest]. *)
Definition ingest_headers (settings : Settings) : gmap string string :=
  let headers : gmap string string := ∅ in
  if truthy (apiKey settings)
  then <[ "x-api-key" := apiKey settings ]> headers
  else headers.

(** The [headers] object built in [SSEClient.connect]. *)
Definition stream_headers (settings : Settings) : gmap string string :=
  let headers : gmap string string :=
    <[ "Cache-Control" := "no-cache" ]> {[ "Accept" := "text/event-stream" ]} in
  if truthy (apiKey settings)
  then <[ "x-api-key" := apiKey settings ]> headers
  else headers.

(** Every [fetch] of the client. *)
Inductive Request :=
| health | config | query | ingest
| analyzeImage | getMultimodalTypes
| generateIntelligence | getIntelligence
| generateSummary
| generateKnowledgeGraph | getKnowledgeGraph
| getAnalytics | getCacheStats | ultraQuickAnswer
| chat_stream.

(** The headers each of them is sent with. *)
Definition request_headers (r : Request) (settings : Settings) : gmap string string :=
  match r with
  | health => ∅
  | ingest => ingest_headers settings
  | chat_stream => stream_headers settings
  | _ => getHeaders settings
  end.

(** The three requests of the chat and ingestion runtime: the one-shot
    query, the answer stream and the upload. *)
Definition core_request (r : Request) : bool :=
  match r with
  | query | chat_stream | ingest => true
  | _ => false
  end.

End Api.

(** ** The streaming client *)

Module SSE.

Section Client.

(** Parsed payloads and [JSON.parse]; [None] stands for the [SyntaxError]
    it throws.  [url_valid] tells whether [new URL(text)] accepts its
    argument (it throws a [TypeError] otherwise). *)
Context {J : Type}.
Variable JSON_parse : string -> option J.
Variable url_valid : string -> bool.

(** Which of the optional callbacks the caller supplied. *)
Record SSECallbacks := mkCallbacks {
  onMessage : bool;
  onCitations : bool;
  onMetadata : bool;
  onError : bool;
  onDone : bool;
  onOpen : bool;
  onClose : bool;
}.

(** The argument handed to a callback: a parsed payload or a text. *)
Inductive Payload := Parsed (j : J) | Text (s : string).

(** One callback invocation. *)
Inductive Invocation :=
| OnMessage (data : Payload)
| OnCitations (data : Payload)
| OnMetadata (data : Payload)
| OnError (data : Payload)
| OnDone (data : Payload)
| OnOpen
| OnClose.

(** [callbacks.onX?.(...)]: an invocation if the callback is there. *)
Definition call (present : bool) (i : Invocation) : list Invocation :=
  if present then [i] else [].

(** [handleEvent] *)
Definition handleEvent (eventType : string) (data : J) (callbacks : SSECallbacks)
    : list Invocation :=
  if decide (eventType = "message") then call (onMessage callbacks) (OnMessage (Parsed data))
  else if decide (eventType = "citations") then call (onCitations callbacks) (OnCitations (Parsed data))
  else if decide (eventType = "metadata") then call (onMetadata callbacks) (OnMetadata (Parsed data))
  else if decide (eventType = "error") then call (onError callbacks) (OnError (Parsed data))
  else if decide (eventType = "done") then call (onDone callbacks) (OnDone (Parsed data))
  else [].

(** *** The line parser *)

Definition newline : Ascii.ascii := Ascii.ascii_of_nat 10.

(** [s.split('\n')]: the pieces between newlines, never an empty array. *)
Fixpoint split_lines (s : string) : list string :=
  match s with
  | EmptyString => [EmptyString]
  | String c s' =>
      if decide (c = newline) then EmptyString :: split_lines s'
      else match split_lines s' with
           | l :: ls => String c l :: ls
           | [] => [String c EmptyString]
           end
  end.

(** [s.slice(n)] for [0 <= n]. *)
Fixpoint slice (n : nat) (s : string) : string :=
  match n, s with
  | O, _ => s
  | S n', String _ s' => slice n' s'
  | S _, EmptyString => EmptyString
  end.

Definition startsWith (p s : string) : bool := String.prefix p s.

(** [lines.indexOf(line)]: the first position holding [line]. *)
Fixpoint indexOf (line : string) (lines : list string) : option nat :=
  match lines with
  | [] => None
  | l :: ls => if decide (l = line) then Some O else S <$> indexOf line ls
  end.

(** [lines[lines.indexOf(line) + 1]], [undefined] as [None]. *)
Definition line_after (line : string) (lines : list string) : option string :=
  match indexOf line lines with
  | Some i => lines !! S i
  | None => lines !! O
  end.

(** The body of [for (const line of lines)].  The callbacks are taken
    not to throw, so the inner [catch] is entered by [JSON.parse] only. *)
Definition process_line (callbacks : SSECallbacks) (lines : list string)
    (line : string) : list Invocation :=
  if startsWith "event: " line then
    let eventType := slice 7 line in
    match line_after line lines with
    | Some dataLine =>
        if startsWith "data: " dataLine then
          let data := slice 6 dataLine in
          match JSON_parse data with
          | Some parsedData => handleEvent eventType parsedData callbacks
          | None =>
              if decide (eventType = "message")
              then call (onMessage callbacks) (OnMessage (Text data))
              else []
          end
        else []
    | None => []
    end
  else [].

(** [lines.pop()]: the array loses its last element, which is the value
    of the call. *)
Definition pop (lines : list string) : list string * option string :=
  (removelast lines, last lines).

(** One turn of the read loop on a decoded chunk: the new buffer and the
    invocations made. *)
Definition read_chunk (callbacks : SSECallbacks) (buffer chunk : string)
    : string * list Invocation :=
  let buffer := buffer +:+ chunk in
  let '(lines, popped) := pop (split_lines buffer) in
  let buffer := Api.or_else (default EmptyString popped) EmptyString in
  (buffer, flat_map (process_line callbacks lines) lines).

(** The read loop over the chunks of a body, from the empty buffer. *)
Fixpoint read_loop (callbacks : SSECallbacks) (buffer : string)
    (chunks : list string) : list Invocation :=
  match chunks with
  | [] => []
  | chunk :: rest =>
      let '(buffer', out) := read_chunk callbacks buffer chunk in
      out ++ read_loop callbacks buffer' rest
  end.

Definition dispatched (callbacks : SSECallbacks) (chunks : list string)
    : list Invocation :=
  read_loop callbacks EmptyString chunks.

(** *** Connections, retry and cancellation

    A connection is one run of the [try] block of [connect]; it is known
    by the position at which it was started, which also stands for the
    [AbortController] made for it.  [eventSource] is never assigned, so
    the branch of [disconnect] on it is dead and left out. *)

(** A value caught by [catch (error)]: the [DOMException] named
    [AbortError] that an aborted [fetch] or [read] rejects with, another
    [Error], or something that is not an [Error]. *)
Inductive Thrown := AbortError | JsError (message : string) | NonError.

(** [error instanceof Error ? error.message : 'Unknown error'] for a
    value that is not the abort. *)
Definition error_message (e : Thrown) : string :=
  match e with
  | JsError m => m
  | AbortError => "The operation was aborted."
  | NonError => "Unknown error"
  end.

(** How [await fetch(...)] settles. *)
Inductive FetchResult :=
| FetchRejected (e : Thrown)
| FetchResponse (ok : bool) (status : Z) (has_body : bool).

(** How [await reader.read()] settles; a chunk is given decoded. *)
Inductive ReadResult :=
| ReadRejected (e : Thrown)
| ReadDone
| ReadChunk (text : string).

Inductive Phase := Fetching | Reading (buffer : string) | Finished.

Record Connection := mkConnection {
  query : string;
  callbacks : SSECallbacks;
  headers : gmap string string;
  aborted : bool;
  phase : Phase;
}.

(** A pending [setTimeout(() => this.connect(query, callbacks), delay)]. *)
Record Timer := mkTimer {
  delay : Z;
  timer_query : string;
  timer_callbacks : SSECallbacks;
}.

(** The fields of the client object, every connection it ever started,
    and the timers it has pending. *)
Record World := mkWorld {
  retryCount : Z;
  abortController : option nat;
  connections : list Connection;
  timers : list Timer;
}.

Definition maxRetries : Z := 3.
Definition retryDelay : Z := 1000.

(** [new SSEClient()] *)
Definition fresh : World :=
  {| retryCount := 0; abortController := None; connections := []; timers := [] |}.

Definition Trace := list (nat * Invocation).

Definition by_connection (i : nat) (l : list Invocation) : Trace :=
  map (fun x => (i, x)) l.

Definition abort_signal (c : Connection) : Connection :=
  {| query := query c; callbacks := callbacks c; headers := headers c;
     aborted := true; phase := phase c |}.

Definition with_phase (p : Phase) (c : Connection) : Connection :=
  {| query := query c; callbacks := callbacks c; headers := headers c;
     aborted := aborted c; phase := p |}.

Definition set_phase (i : nat) (p : Phase) (w : World) : World :=
  {| retryCount := retryCount w;
     abortController := abortController w;
     connections := alter (with_phase p) i (connections w);
     timers := timers w |}.

(** [disconnect()] *)
Definition disconnect (w : World) : World :=
  {| retryCount := 0;
     abortController := None;
     connections :=
       match abortController w with
       | Some i => alter abort_signal i (connections w)
       | None => connections w
       end;
     timers := timers w |}.

(** [connect(query, callbacks)] up to its first [await].  [new URL(...)]
    stands before the [try] block: when it throws, the call ends there. *)
Definition connect (settings : Api.Settings) (q : string)
    (cbs : SSECallbacks) (w : World) : World :=
  let w := disconnect w in
  if url_valid (Api.apiBaseUrl settings +:+ "/chat/stream") then
    {| retryCount := retryCount w;
       abortController := Some (length (connections w));
       connections :=
         connections w ++
         [ {| query := q; callbacks := cbs;
              headers := Api.stream_headers settings;
              aborted := false; phase := Fetching |} ];
       timers := timers w |}
  else w.

(** The [catch] block of [connect], for connection [i]. *)
Definition on_catch (i : nat) (c : Connection) (e : Thrown) (w : World)
    : World * Trace :=
  match e with
  | AbortError => (w, by_connection i (call (onClose (callbacks c)) OnClose))
  | _ =>
      if decide (retryCount w < maxRetries) then
        let n := retryCount w + 1 in
        ({| retryCount := n;
            abortController := abortController w;
            connections := connections w;
            timers := timers w ++
                      [ {| delay := retryDelay * n;
                           timer_query := query c;
                           timer_callbacks := callbacks c |} ] |},
         [])
      else
        (w, by_connection i
              (call (onError (callbacks c)) (OnError (Text (error_message e)))
               ++ call (onClose (callbacks c)) OnClose))
  end.

(** [await fetch(...)] of connection [i] settles.  A fetch whose signal
    was aborted rejects with the abort. *)
Definition fetch_settles (i : nat) (r : FetchResult) (w : World)
    : option (World * Trace) :=
  match connections w !! i with
  | Some c =>
      match phase c with
      | Fetching =>
          match (if aborted c then FetchRejected AbortError else r) with
          | FetchRejected e => Some (on_catch i c e (set_phase i Finished w))
          | FetchResponse ok status has_body =>
              if negb ok then
                Some (on_catch i c
                        (JsError ("SSE connection failed: " +:+ pretty status))
                        (set_phase i Finished w))
              else if negb has_body then
                Some (on_catch i c (JsError "No response body")
                        (set_phase i Finished w))
              else
                Some (set_phase i (Reading EmptyString) w,
                      by_connection i (call (onOpen (callbacks c)) OnOpen))
          end
      | _ => None
      end
  | None => None
  end.

(** [await reader.read()] of connection [i] settles. *)
Definition read_settles (i : nat) (r : ReadResult) (w : World)
    : option (World * Trace) :=
  match connections w !! i with
  | Some c =>
      match phase c with
      | Reading buffer =>
          match (if aborted c then ReadRejected AbortError else r) with
          | ReadRejected e => Some (on_catch i c e (set_phase i Finished w))
          | ReadDone =>
              Some (set_phase i Finished w,
                    by_connection i (call (onClose (callbacks c)) OnClose))
          | ReadChunk text =>
              let '(buffer', out) := read_chunk (callbacks c) buffer text in
              Some (set_phase i (Reading buffer') w, by_connection i out)
          end
      | _ => None
      end
  | None => None
  end.

(** The [n]-th pending timer fires: [this.connect(query, callbacks)]. *)
Definition timer_fires (n : nat) (settings : Api.Settings) (w : World)
    : option (World * Trace) :=
  match timers w !! n with
  | Some t =>
      Some (connect settings (timer_query t) (timer_callbacks t)
              {| retryCount := retryCount w;
                 abortController := abortController w;
                 connections := connections w;
                 timers := delete n (timers w) |},
            [])
  | None => None
  end.

(** What can happen to a client: calls by the page, promises settling,
    timers firing.  [settings] is what [useSettings.getState()] returns
    at that moment. *)
Inductive Event :=
| Connect (settings : Api.Settings) (q : string) (cbs : SSECallbacks)
| Disconnect
| FetchSettles (i : nat) (r : FetchResult)
| ReadSettles (i : nat) (r : ReadResult)
| TimerFires (n : nat) (settings : Api.Settings).

Definition step (ev : Event) (w : World) : option (World * Trace) :=
  match ev with
  | Connect settings q cbs => Some (connect settings q cbs w, [])
  | Disconnect => Some (disconnect w, [])
  | FetchSettles i r => fetch_settles i r w
  | ReadSettles i r => read_settles i r w
  | TimerFires n settings => timer_fires n settings w
  end.

Fixpoint run (evs : list Event) (w : World) : option (World * Trace) :=
  match evs with
  | [] => Some (w, [])
  | ev :: rest =>
      match step ev w with
      | Some (w', t) =>
          match run rest w' with
          | Some (w'', t') => Some (w'', t ++ t')
          | None => None
          end
      | None => None
      end
  end.

(** [n] attempts that each fail at [fetch] with [e], every failure
    followed by the firing of the retry timer it set; [i0] is the position
    of the first attempt and [t0] that of its timer. *)
Definition failed_attempts (settings : Api.Settings) (e : Thrown)
    (i0 t0 : nat) (n : nat) : list Event :=
  flat_map (fun k => [FetchSettles (i0 + k) (FetchRejected e);
                      TimerFires t0 settings])
           (seq 0 n).

Definition is_error_call (x : nat * Invocation) : bool :=
  match snd x with OnError _ => true | _ => false end.

Definition is_close_call (x : nat * Invocation) : bool :=
  match snd x with OnClose => true | _ => false end.

End Client.

End SSE.

(** * Facts about the conversation store *)

Section ChatFacts.

Context {Citation RetrievalDebug : Type}.

Local Abbreviation Message := (Chat.Message Citation RetrievalDebug).
Local Abbreviation NewMessage := (Chat.NewMessage Citation RetrievalDebug).
Local Abbreviation MessageUpdate := (Chat.MessageUpdate Citation RetrievalDebug).
Local Abbreviation Conversation := (Chat.Conversation Citation RetrievalDebug).
Local Abbreviation ChatState := (Chat.ChatState Citation RetrievalDebug).

(** One [addMessage] call with everything it reads from its environment. *)
Record AddCall := mkAddCall {
  call_conversation : string;
  call_message : NewMessage;
  call_now_id : Z;
  call_now_ts : Z;
  call_now_updated : Z;
  call_rnd : string;
}.

Definition do_add (c : AddCall) (st : ChatState) : ChatState :=
  fst (Chat.addMessage (call_conversation c) (call_message c)
         (call_now_id c) (call_now_ts c) (call_now_updated c) (call_rnd c) st).

(** A series of [addMessage] calls, first call first. *)
Definition addMessages (calls : list AddCall) (st : ChatState) : ChatState :=
  fold_left (fun s c => do_add c s) calls st.

(** Some message of some conversation named [cid] has the id [mid]. *)
Definition message_known (cid mid : string) (st : ChatState) : bool :=
  existsb (fun conv =>
             bool_decide (Chat.conv_id conv = cid)
             && existsb (fun msg => bool_decide (Chat.id msg = mid))
                        (Chat.messages conv))
          (Chat.conversations st).

(** The store with [updatedAt] of the conversations named [cid] set to
    [now] and nothing else changed. *)
Definition touch (cid : string) (now : Z) (st : ChatState) : ChatState :=
  Chat.set_conversations
    (map (fun conv =>
            if decide (Chat.conv_id conv = cid)
            then {| Chat.conv_id := Chat.conv_id conv;
                    Chat.title := Chat.title conv;
                    Chat.messages := Chat.messages conv;
                    Chat.createdAt := Chat.createdAt conv;
                    Chat.updatedAt := now |}
            else conv)
         (Chat.conversations st))
    st.

Lemma set_conversations_same (st : ChatState) :
  Chat.set_conversations (Chat.conversations st) st = st.
Proof. by destruct st. Qed.

Lemma lookup_map {A B : Type} (f : A -> B) (l : list A) (i : nat) :
  map f l !! i = f <$> (l !! i).
Proof.
  revert i. induction l as [|a l IH]; intros [|i]; simpl; auto.
Qed.

Lemma map_unnamed (cid : string) (f : Conversation -> Conversation)
    (l : list Conversation) :
  find (fun conv => bool_decide (Chat.conv_id conv = cid)) l = None ->
  map (fun conv => if decide (Chat.conv_id conv = cid) then f conv else conv) l = l.
Proof.
  induction l as [|c l IH]; simpl; [done|].
  case_bool_decide; [done|]. intros Hfind.
  destruct (decide _); [done|]. by rewrite IH.
Qed.

Lemma map_messages_unknown (mid : string) (f : Message -> Message)
    (l : list Message) :
  existsb (fun msg => bool_decide (Chat.id msg = mid)) l = false ->
  map (fun msg => if decide (Chat.id msg = mid) then f msg else msg) l = l.
Proof.
  induction l as [|m l IH]; simpl; [done|].
  intros [Hm Hl]%orb_false_iff.
  apply bool_decide_eq_false in Hm.
  destruct (decide _); [done|]. by rewrite IH.
Qed.

Lemma length_slice0 (n : nat) (s : string) :
  String.length (Chat.slice0 n s) = Nat.min n (String.length s).
Proof.
  unfold Chat.slice0. revert n.
  induction s as [|c s IH]; intros [|n]; simpl; auto.
Qed.

Lemma slice0_all (n : nat) (s : string) :
  (String.length s <= n)%nat -> Chat.slice0 n s = s.
Proof.
  unfold Chat.slice0. revert n.
  induction s as [|c s IH]; intros [|n]; simpl; intros H; try done; try lia.
  f_equal. apply IH. lia.
Qed.

Lemma length_app_string (s t : string) :
  String.length (s +:+ t) = (String.length s + String.length t)%nat.
Proof.
  induction s as [|c s IH]; [done|].
  change (String c s +:+ t) with (String c (s +:+ t)). simpl. by rewrite IH.
Qed.

Lemma app_empty_r (s : string) : s +:+ "" = s.
Proof.
  induction s as [|c s IH]; [done|].
  change (String c s +:+ "") with (String c (s +:+ "")). by rewrite IH.
Qed.

Lemma length_derive_title (c : string) :
  String.length (Chat.derive_title c)
  = if decide (50 < String.length c)%nat then 53%nat else String.length c.
Proof.
  unfold Chat.derive_title.
  rewrite length_app_string, length_slice0.
  destruct (decide _); simpl String.length; lia.
Qed.

(** The character [c] does not occur in [s]. *)
Fixpoint free_of (c : Ascii.ascii) (s : string) : Prop :=
  match s with
  | EmptyString => True
  | String a s' => a <> c /\ free_of c s'
  end.

Lemma split_unique (c : Ascii.ascii) (s s' t t' : string) :
  free_of c s -> free_of c s' ->
  s +:+ String c t = s' +:+ String c t' -> s = s' /\ t = t'.
Proof.
  revert s'. induction s as [|a s IH]; intros [|a' s'] Hs Hs'.
  - intros [= ->]. done.
  - change (String a' s' +:+ String c t') with (String a' (s' +:+ String c t')).
    intros [= <- _]. by destruct Hs' as [? _].
  - change (String a s +:+ String c t) with (String a (s +:+ String c t)).
    intros [= -> _]. by destruct Hs as [? _].
  - change (String a s +:+ String c t) with (String a (s +:+ String c t)).
    change (String a' s' +:+ String c t') with (String a' (s' +:+ String c t')).
    intros [= -> Heq]. destruct Hs as [_ Hs], Hs' as [_ Hs'].
    destruct (IH s' Hs Hs' Heq) as [-> ->]. done.
Qed.

Lemma pretty_N_go_free (x : N) (s : string) :
  free_of "_"%char s -> free_of "_"%char (pretty_N_go x s).
Proof.
  revert s. induction (N.lt_wf_0 x) as [x _ IH]; intros s Hs.
  assert (x = 0 \/ 0 < x)%N as [->|Hx] by lia.
  - by rewrite pretty_N_go_0.
  - rewrite pretty_N_go_step by done. apply IH; [by apply N.div_lt|].
    split; [|done]. unfold pretty_N_char. by repeat case_match.
Qed.

Lemma pretty_N_free (x : N) : free_of "_"%char (pretty x).
Proof.
  unfold pretty, pretty_N. destruct (decide (x = 0%N)).
  - by split.
  - by apply pretty_N_go_free.
Qed.

Lemma pretty_Z_free (z : Z) : free_of "_"%char (pretty z).
Proof.
  destruct z as [|p|p].
  - by split.
  - apply (pretty_N_free (Npos p)).
  - split; [done|]. apply (pretty_N_free (Npos p)).
Qed.

(** Ids made from different clock readings or different random texts
    differ. *)
Lemma fresh_id_inj (prefix : string) (now now' : Z) (rnd rnd' : string) :
  Chat.fresh_id prefix now rnd = Chat.fresh_id prefix now' rnd' ->
  now = now' /\ rnd = rnd'.
Proof.
  unfold Chat.fresh_id. intros Heq%(inj (String.append prefix)).
  apply split_unique in Heq as [Hn ->]; [|apply pretty_Z_free..].
  by apply (inj pretty) in Hn as ->.
Qed.

Lemma addMessage_conversations (cid : string) (m : NewMessage)
    (now_id now_ts now_updated : Z) (rnd : string) (st : ChatState) (i : nat) :
  Chat.conversations (fst (Chat.addMessage cid m now_id now_ts now_updated rnd st)) !! i
  = (fun conv =>
       if decide (Chat.conv_id conv = cid)
       then Chat.append_message (Chat.make_message m now_id now_ts rnd) m now_updated conv
       else conv) <$> (Chat.conversations st !! i).
Proof. simpl. apply lookup_map. Qed.

(** A conversation whose title is not the default keeps its title, and its
    place in the list, through any series of [addMessage] calls. *)
Lemma addMessages_keeps_title (calls : list AddCall) (st : ChatState)
    (i : nat) (conv : Conversation) :
  Chat.conversations st !! i = Some conv ->
  Chat.title conv <> Chat.default_title ->
  exists conv',
    Chat.conversations (addMessages calls st) !! i = Some conv'
    /\ Chat.title conv' = Chat.title conv
    /\ Chat.conv_id conv' = Chat.conv_id conv.
Proof.
  revert st conv. induction calls as [|c calls IH]; intros st conv Hi Ht.
  - exists conv. by simpl.
  - simpl.
    pose proof (addMessage_conversations (call_conversation c) (call_message c)
                  (call_now_id c) (call_now_ts c) (call_now_updated c)
                  (call_rnd c) st i) as Hstep.
    rewrite Hi in Hstep. simpl in Hstep.
    destruct (decide (Chat.conv_id conv = call_conversation c)) as [Hc|Hc].
    + destruct (IH (do_add c st) _ Hstep) as (conv' & H1 & H2 & H3).
      { simpl. destruct (decide _) as [[? _]|_]; done. }
      exists conv'. split; [exact H1|].
      split.
      * rewrite H2. simpl. destruct (decide _) as [[? _]|_]; done.
      * rewrite H3. done.
    + destruct (IH (do_add c st) _ Hstep Ht) as (conv' & H1 & H2 & H3).
      exists conv'. done.
Qed.

(** C3 (amended): in a conversation whose title is still the default
    literal, an [addMessage] call with a user message sets the title to
    the first 50 characters of the message, followed by the three
    characters [...] exactly when the message is longer than 50; the
    title then has at most 53 characters (53 when truncated, the message
    itself otherwise).  A conversation whose title is not the default
    keeps it through every later series of [addMessage] calls. *)
Theorem addMessage_title (st : ChatState) (cid : string) (m : NewMessage)
    (now_id now_ts now_updated : Z) (rnd : string)
    (i : nat) (conv : Conversation) :
  Chat.conversations st !! i = Some conv ->
  Chat.conv_id conv = cid ->
  (Chat.title conv = Chat.default_title ->
   Chat.new_role m = Chat.user ->
   exists conv',
     Chat.conversations
       (fst (Chat.addMessage cid m now_id now_ts now_updated rnd st)) !! i
     = Some conv'
     /\ Chat.title conv'
        = Chat.slice0 50 (Chat.new_content m)
          +:+ (if decide (50 < String.length (Chat.new_content m))%nat
               then "..." else "")
     /\ (String.length (Chat.title conv') <= 53)%nat
     /\ ((String.length (Chat.new_content m) <= 50)%nat ->
         Chat.title conv' = Chat.new_content m)
     /\ ((50 < String.length (Chat.new_content m))%nat ->
         String.length (Chat.title conv') = 53%nat))
  /\ (Chat.title conv <> Chat.default_title ->
      forall calls : list AddCall,
      exists conv',
        Chat.conversations (addMessages calls st) !! i = Some conv'
        /\ Chat.title conv' = Chat.title conv).
Proof.
  intros Hi Hcid. split.
  - intros Ht Hr.
    eexists. split.
    { rewrite addMessage_conversations, Hi. simpl.
      destruct (decide (Chat.conv_id conv = cid)); [reflexivity|done]. }
    simpl.
    destruct (decide (Chat.title conv = Chat.default_title /\ Chat.new_role m = Chat.user))
      as [_|Hn]; [|by destruct Hn].
    fold (Chat.derive_title (Chat.new_content m)).
    split; [done|].
    rewrite length_derive_title.
    split; [destruct (decide _); lia|].
    split.
    + intros Hle. unfold Chat.derive_title.
      destruct (decide _); [lia|].
      rewrite app_empty_r. by apply slice0_all.
    + intros Hlt. destruct (decide _); [done|lia].
  - intros Ht calls.
    destruct (addMessages_keeps_title calls st i conv Hi Ht) as (conv' & H1 & H2 & _).
    by exists conv'.
Qed.

(** C4 (amended): for a conversation of the store named by the id,
    [addMessage] builds a message with the id [msg_<clock>_<random>],
    which no other clock reading or random text gives, the clock as
    timestamp and the fields of the partial message, appends it
    to that conversation's messages, sets its [updatedAt] from the clock,
    leaves conversations with another id as they are, and returns
    nothing. *)
Theorem addMessage_appends (st : ChatState) (cid : string) (m : NewMessage)
    (now_id now_ts now_updated : Z) (rnd : string)
    (i : nat) (conv : Conversation) :
  Chat.conversations st !! i = Some conv ->
  Chat.conv_id conv = cid ->
  let r := Chat.addMessage cid m now_id now_ts now_updated rnd st in
  let created := Chat.make_message m now_id now_ts rnd in
  (exists conv',
     Chat.conversations (fst r) !! i = Some conv'
     /\ Chat.messages conv' = Chat.messages conv ++ [created]
     /\ Chat.updatedAt conv' = now_updated
     /\ Chat.conv_id conv' = Chat.conv_id conv
     /\ Chat.createdAt conv' = Chat.createdAt conv)
  /\ Chat.id created = "msg_" +:+ pretty now_id +:+ "_" +:+ rnd
  /\ (forall now' rnd',
        Chat.fresh_id "msg_" now' rnd' = Chat.id created ->
        now' = now_id /\ rnd' = rnd)
  /\ Chat.timestamp created = now_ts
  /\ Chat.role created = Chat.new_role m
  /\ Chat.content created = Chat.new_content m
  /\ (forall j other,
        Chat.conversations st !! j = Some other ->
        Chat.conv_id other <> cid ->
        Chat.conversations (fst r) !! j = Some other)
  /\ length (Chat.conversations (fst r)) = length (Chat.conversations st)
  /\ snd r = Chat.Undefined.
Proof.
  intros Hi Hcid r created. split.
  { eexists. split.
    - unfold r. rewrite addMessage_conversations, Hi. simpl.
      destruct (decide (Chat.conv_id conv = cid)); [reflexivity|done].
    - done. }
  split; [done|]. split; [intros now' rnd'; apply fresh_id_inj|].
  repeat split.
  - intros j other Hj Hne. unfold r.
    rewrite addMessage_conversations, Hj. simpl.
    destruct (decide (Chat.conv_id other = cid)); done.
  - simpl. apply length_map.
Qed.

(** C5 (amended): [updateMessage] with a conversation id that names no
    conversation leaves the store as it is; with the id of a conversation
    but a message id that none of its messages has, it leaves every
    message, title and other field as it is and sets [updatedAt] of that
    conversation to the clock. *)
Theorem updateMessage_unknown (st : ChatState) (cid mid : string)
    (updates : MessageUpdate) (now_updated : Z) :
  (Chat.getConversation cid st = None ->
   Chat.updateMessage cid mid updates now_updated st = st)
  /\ (message_known cid mid st = false ->
      Chat.updateMessage cid mid updates now_updated st = touch cid now_updated st).
Proof.
  split.
  - intros Hnone. unfold Chat.updateMessage.
    rewrite map_unnamed by exact Hnone.
    apply set_conversations_same.
  - intros Hk. unfold Chat.updateMessage, touch. f_equal.
    unfold message_known in Hk.
    induction (Chat.conversations st) as [|c l IH]; simpl; [done|].
    simpl in Hk. apply orb_false_iff in Hk as [Hc Hl].
    rewrite IH by exact Hl. f_equal.
    destruct (decide (Chat.conv_id c = cid)) as [Heq|]; [|done].
    rewrite bool_decide_eq_true_2 in Hc by exact Heq. simpl in Hc.
    unfold Chat.update_in. by rewrite map_messages_unknown.
Qed.

End ChatFacts.

(** Concrete stores for the examples below. *)
Definition fresh_conversation : Chat.Conversation unit unit :=
  {| Chat.conv_id := "c"; Chat.title := Chat.default_title;
     Chat.messages := []; Chat.createdAt := 0; Chat.updatedAt := 0 |}.

Definition one_conversation : Chat.ChatState unit unit :=
  {| Chat.conversations := [fresh_conversation];
     Chat.currentConversationId := Some "c";
     Chat.isLoading := false; Chat.chat_error := None |}.

Definition user_says (c : string) : Chat.NewMessage unit unit :=
  {| Chat.new_role := Chat.user; Chat.new_content := c;
     Chat.new_citations := None; Chat.new_retrievalDebug := None;
     Chat.new_isStreaming := None; Chat.new_error := None |}.

Definition no_update : Chat.MessageUpdate unit unit :=
  {| Chat.upd_id := None; Chat.upd_role := None; Chat.upd_content := None;
     Chat.upd_timestamp := None; Chat.upd_citations := None;
     Chat.upd_retrievalDebug := None; Chat.upd_isStreaming := None;
     Chat.upd_error := None |}.

(** 51 characters. *)
Definition fifty_one : string :=
  "012345678901234567890123456789012345678901234567890".

Definition titled_conversation : Chat.Conversation unit unit :=
  {| Chat.conv_id := "t"; Chat.title := "Hello";
     Chat.messages := []; Chat.createdAt := 0; Chat.updatedAt := 0 |}.

Definition two_conversations : Chat.ChatState unit unit :=
  {| Chat.conversations := [fresh_conversation; titled_conversation];
     Chat.currentConversationId := Some "c";
     Chat.isLoading := false; Chat.chat_error := None |}.

(** C3, as stated, fails: a first user message of 51 characters gives a
    title of 53 characters. *)
Lemma title_may_exceed_51 :
  exists conv',
    Chat.conversations
      (fst (Chat.addMessage "c" (user_says fifty_one) 1 1 1 "r" one_conversation))
      !! 0%nat = Some conv'
    /\ Chat.title conv'
       = "01234567890123456789012345678901234567890123456789..."
    /\ String.length (Chat.title conv') = 53%nat
    /\ ~ (String.length (Chat.title conv') <= 51)%nat.
Proof.
  eexists. split; [reflexivity|].
  split; [reflexivity|]. split; [reflexivity|].
  vm_compute. lia.
Qed.

Lemma addMessage_title_witness :
  (exists conv',
     Chat.conversations
       (fst (Chat.addMessage "c" (user_says fifty_one) 1 2 3 "r" two_conversations))
       !! 0%nat = Some conv'
     /\ String.length (Chat.title conv') = 53%nat)
  /\ (exists conv',
        Chat.conversations
          (addMessages [mkAddCall "t" (user_says "later") 4 5 6 "s"] two_conversations)
          !! 1%nat = Some conv'
        /\ Chat.title conv' = "Hello").
Proof.
  split.
  - destruct (addMessage_title two_conversations "c" (user_says fifty_one)
                1 2 3 "r" 0%nat fresh_conversation eq_refl eq_refl)
      as [Hfirst _].
    destruct (Hfirst eq_refl eq_refl) as (conv' & H1 & _ & _ & _ & H5).
    exists conv'. split; [exact H1|]. apply H5. vm_compute. lia.
  - destruct (addMessage_title two_conversations "t" (user_says "x")
                1 2 3 "r" 1%nat titled_conversation eq_refl eq_refl)
      as [_ Hlater].
    apply Hlater. discriminate.
Defined.

(** C4, as stated, fails: the call returns [undefined], not the id of the
    message it appended. *)
Lemma addMessage_returns_nothing :
  let r := Chat.addMessage "c" (user_says "Hello") 1 2 3 "r" one_conversation in
  exists conv' created,
    Chat.conversations (fst r) !! 0%nat = Some conv'
    /\ last (Chat.messages conv') = Some created
    /\ Chat.id created = "msg_1_r"
    /\ snd r = Chat.Undefined
    /\ snd r <> Chat.ReturnedString (Chat.id created).
Proof.
  do 2 eexists. split; [reflexivity|]. split; [reflexivity|].
  split; [reflexivity|]. split; [reflexivity|]. discriminate.
Qed.

Lemma addMessage_appends_witness :
  exists conv',
    Chat.conversations
      (fst (Chat.addMessage "c" (user_says "Hello") 1 2 3 "r" one_conversation))
      !! 0%nat = Some conv'
    /\ Chat.messages conv' = [Chat.make_message (user_says "Hello") 1 2 "r"]
    /\ Chat.updatedAt conv' = 3.
Proof.
  destruct (addMessage_appends one_conversation "c" (user_says "Hello")
              1 2 3 "r" 0%nat fresh_conversation eq_refl eq_refl)
    as [(conv' & H1 & H2 & H3 & _) _].
  exists conv'. split; [exact H1|]. split; [exact H2|exact H3].
Defined.

(** C5, as stated, fails: a message id unknown to an existing conversation
    still moves that conversation's [updatedAt]. *)
Lemma updateMessage_unknown_message_touches :
  message_known "c" "nope" one_conversation = false
  /\ Chat.updateMessage "c" "nope" no_update 5 one_conversation <> one_conversation
  /\ Chat.updatedAt <$> Chat.conversations one_conversation !! 0%nat = Some 0
  /\ Chat.updatedAt <$>
       Chat.conversations
         (Chat.updateMessage "c" "nope" no_update 5 one_conversation) !! 0%nat
     = Some 5.
Proof.
  split; [reflexivity|]. split; [discriminate|]. split; reflexivity.
Qed.

Lemma updateMessage_unknown_witness :
  Chat.updateMessage "zz" "m" no_update 5 one_conversation = one_conversation
  /\ Chat.updateMessage "c" "nope" no_update 5 one_conversation
     = touch "c" 5 one_conversation.
Proof.
  split.
  - apply (updateMessage_unknown one_conversation "zz" "m" no_update 5).
    reflexivity.
  - apply (updateMessage_unknown one_conversation "c" "nope" no_update 5).
    reflexivity.
Defined.

(** * Facts about the ingestion queue *)

Section IngestProgress.

Import Ingest.

Lemma fold_progress (l : list IngestItem) (a : Z) :
  fold_left (fun sum item => sum + progress item) l a = a + totalProgress l.
Proof.
  unfold totalProgress. revert a.
  induction l as [|x l IH]; intros a; simpl; [lia|].
  rewrite IH, (IH (0 + progress x)). lia.
Qed.

Lemma totalProgress_cons (x : IngestItem) (l : list IngestItem) :
  totalProgress (x :: l) = progress x + totalProgress l.
Proof. unfold totalProgress at 1. simpl. rewrite fold_progress. lia. Qed.

Lemma totalProgress_app (l1 l2 : list IngestItem) :
  totalProgress (l1 ++ l2) = totalProgress l1 + totalProgress l2.
Proof.
  induction l1 as [|x l1 IH]; simpl; [done|].
  rewrite !totalProgress_cons, IH. lia.
Qed.

Lemma totalProgress_constant (P : Z) (l : list IngestItem) :
  Forall (fun item => progress item = P) l ->
  totalProgress l = Z.of_nat (length l) * P.
Proof.
  induction 1 as [|x l Hx _ IH]; [done|].
  rewrite totalProgress_cons, IH, Hx. simpl length. lia.
Qed.

(** [Math.round] of a quotient of integers, in integer arithmetic. *)
Lemma Math_round_quotient (a b : Z) :
  0 < b ->
  Math_round (inject_Z a / inject_Z b) = (2 * a + b) / (2 * b).
Proof.
  intros Hb. destruct b as [|p|p]; try lia.
  unfold Math_round, Qfloor, Qdiv, Qinv, Qmult, Qplus, inject_Z. simpl.
  f_equal; lia.
Qed.

Lemma getTotalProgress_quotient (st : IngestState) :
  items st <> [] ->
  getTotalProgress st
  = (2 * totalProgress (items st) + Z.of_nat (length (items st)))
    / (2 * Z.of_nat (length (items st))).
Proof.
  intros Hne. unfold getTotalProgress.
  destruct (decide (length (items st) = 0%nat)) as [H0|H0].
  - destruct (items st); [done|discriminate].
  - apply Math_round_quotient. lia.
Qed.

(** C7 (amended): [getTotalProgress] is 0 on the empty queue and otherwise
    the mean of the [progress] fields rounded to the nearest integer,
    halves upwards.  A queue whose items all have the progress [P] gives
    [P].  [N] pending items at 0 followed by a success item at 100 give
    [100/(N+1)] rounded, which is [100/(N+1)] itself exactly when [N+1]
    divides 100. *)
Theorem getTotalProgress_rounded_mean (st : IngestState) :
  (items st = [] -> getTotalProgress st = 0)
  /\ (items st <> [] ->
      let n := Z.of_nat (length (items st)) in
      let r := getTotalProgress st in
      2 * n * r <= 2 * totalProgress (items st) + n < 2 * n * (r + 1))
  /\ (forall P : Z,
        items st <> [] ->
        Forall (fun item => progress item = P) (items st) ->
        getTotalProgress st = P)
  /\ (forall (before after : list IngestItem) (done : IngestItem),
        items st = before ++ done :: after ->
        Forall (fun item => status item = pending /\ progress item = 0)
               (before ++ after) ->
        status done = success -> progress done = 100 ->
        let n := Z.of_nat (length (before ++ after)) + 1 in
        getTotalProgress st = (200 + n) / (2 * n)
        /\ (getTotalProgress st * n = 100 <-> (n | 100))).
Proof.
  split; [|split; [|split]].
  - intros He. unfold getTotalProgress. rewrite He. done.
  - intros Hne n r. unfold r. rewrite getTotalProgress_quotient by done.
    fold n.
    assert (0 < n) by (unfold n; destruct (items st); [done|simpl; lia]).
    pose proof (Z.div_mod (2 * totalProgress (items st) + n) (2 * n)).
    pose proof (Z.mod_pos_bound (2 * totalProgress (items st) + n) (2 * n)).
    nia.
  - intros P Hne Hall. rewrite getTotalProgress_quotient by done.
    rewrite (totalProgress_constant P) by done.
    assert (0 < Z.of_nat (length (items st)))
      by (destruct (items st); [done|simpl; lia]).
    symmetry. apply (Z.div_unique_pos _ _ _ (Z.of_nat (length (items st)))); lia.
  - intros before after done Hitems Hrest Hs Hp n.
    assert (Hne : items st <> []) by (rewrite Hitems; by destruct before).
    assert (Hzero : totalProgress (before ++ after) = 0).
    { rewrite (totalProgress_constant 0); [lia|].
      eapply Forall_impl; [exact Hrest|]. by intros ? [_ ?]. }
    assert (Htot : totalProgress (items st) = 100).
    { rewrite totalProgress_app in Hzero.
      rewrite Hitems, totalProgress_app, totalProgress_cons, Hp. lia. }
    assert (Hlen : Z.of_nat (length (items st)) = n).
    { rewrite Hitems. unfold n. rewrite !length_app. simpl. lia. }
    rewrite getTotalProgress_quotient by done.
    rewrite Htot, Hlen. change (2 * 100) with 200.
    split; [done|].
    assert (0 < n) by (unfold n; lia).
    split.
    + intros Hr. exists ((200 + n) / (2 * n)). lia.
    + intros [k Hk].
      assert ((200 + n) / (2 * n) = k); [|lia].
      symmetry. apply (Z.div_unique_pos _ _ _ n); lia.
Qed.

End IngestProgress.

Definition queue_item (i : string) (s : Ingest.Status) (p : Z) : Ingest.IngestItem :=
  {| Ingest.id := i; Ingest.name := i; Ingest.type := Ingest.file;
     Ingest.size := None; Ingest.status := s; Ingest.progress := p;
     Ingest.result := None; Ingest.item_error := None |}.

(** Two pending files and one uploaded. *)
Definition three_items : Ingest.IngestState :=
  {| Ingest.items := [queue_item "file_a" Ingest.pending 0;
                      queue_item "file_b" Ingest.pending 0;
                      queue_item "file_c" Ingest.success 100];
     Ingest.isUploading := false |}.

(** C7, as stated, fails: with [N = 2] the result is 33, which is not
    [100/3]. *)
Lemma getTotalProgress_is_not_the_mean :
  Ingest.getTotalProgress three_items = 33
  /\ ~ (inject_Z (Ingest.getTotalProgress three_items) == 100 / inject_Z (2 + 1))%Q.
Proof.
  split; [reflexivity|].
  vm_compute. discriminate.
Qed.

Lemma getTotalProgress_rounded_mean_witness :
  Ingest.getTotalProgress Ingest.initial = 0
  /\ 2 * 3 * Ingest.getTotalProgress three_items
     <= 2 * Ingest.totalProgress (Ingest.items three_items) + 3
     < 2 * 3 * (Ingest.getTotalProgress three_items + 1)
  /\ Ingest.getTotalProgress three_items = (200 + 3) / (2 * 3).
Proof.
  destruct (getTotalProgress_rounded_mean Ingest.initial) as [Hempty _].
  destruct (getTotalProgress_rounded_mean three_items) as (_ & Hmean & _ & Hone).
  split; [apply Hempty; reflexivity|].
  split; [apply Hmean; discriminate|].
  apply (Hone [queue_item "file_a" Ingest.pending 0;
               queue_item "file_b" Ingest.pending 0] []
              (queue_item "file_c" Ingest.success 100)).
  - reflexivity.
  - repeat constructor.
  - reflexivity.
  - reflexivity.
Defined.

Section IngestRetry.

Import Ingest.

Lemma find_item_Some (i : string) (l : list IngestItem) (item : IngestItem) :
  find_item i l = Some item -> id item = i /\ item ∈ l.
Proof.
  unfold find_item. induction l as [|x l IH]; simpl; [done|].
  case_bool_decide as Hx.
  - intros [= <-]. split; [done|]. apply elem_of_cons. by left.
  - intros Hf. destruct (IH Hf) as [? ?]. split; [done|].
    apply elem_of_cons. by right.
Qed.

Lemma find_item_update (i : string) (f : IngestItem -> IngestItem)
    (l : list IngestItem) :
  (forall x, id (f x) = id x) ->
  find_item i (map (fun item => if decide (id item = i) then f item else item) l)
  = f <$> find_item i l.
Proof.
  intros Hid. unfold find_item. induction l as [|x l IH]; simpl; [done|].
  destruct (decide (id x = i)) as [Hx|Hx].
  - rewrite !bool_decide_eq_true_2; [done|done|by rewrite Hid].
  - rewrite !bool_decide_eq_false_2 by done. exact IH.
Qed.

Lemma elem_of_update_items (i : string) (f : IngestItem -> IngestItem)
    (st : IngestState) (y : IngestItem) :
  y ∈ items (update_items i f st) ->
  exists x, x ∈ items st /\ y = (if decide (id x = i) then f x else x).
Proof.
  unfold update_items. simpl.
  induction (items st) as [|x l IH]; simpl.
  - intros H%elem_of_nil. done.
  - intros [->|Hin]%elem_of_cons.
    + exists x. split; [apply elem_of_cons; by left|done].
    + destruct (IH Hin) as (x' & ? & ?). exists x'.
      split; [apply elem_of_cons; by right|done].
Qed.

(** What [uploadItem] does up to its [await], on a pending item. *)
Lemma run_uploadItem_pending (i : string) (st : IngestState) (item : IngestItem) :
  find_item i (items st) = Some item ->
  status item = pending ->
  run (uploadItem i) st
  = {| published := [update_items i mark_uploading st];
       final := update_items i mark_uploading st;
       parked := Some (match type item with
                       | file => WaitTimeout 1000 (upload_done i (simulated_result item))
                       | url => WaitIngestUrl (name item) (after_ingestUrl i)
                       end) |}.
Proof.
  intros Hf Hs. simpl. rewrite Hf.
  destruct (decide (status item = pending)); [|done].
  simpl. unfold upload_body. by destruct (type item).
Qed.

(** What [uploadItem] does on anything else: nothing. *)
Lemma run_uploadItem_noop (i : string) (st : IngestState) :
  (forall item, find_item i (items st) = Some item -> status item <> pending) ->
  run (uploadItem i) st = {| published := []; final := st; parked := None |}.
Proof.
  intros Hn. simpl. destruct (find_item i (items st)) as [item|] eqn:Hf; [|done].
  destruct (decide (status item = pending)) as [Hs|]; [|done].
  by destruct (Hn item eq_refl).
Qed.

(** What [retryItem] does on an item in [error]: the reset, then
    [uploadItem] on the reset store. *)
Lemma run_retryItem_error (i : string) (st : IngestState) (item : IngestItem) :
  find_item i (items st) = Some item ->
  status item = error ->
  run (retryItem i) st
  = {| published := update_items i mark_pending st
                    :: published (run (uploadItem i) (update_items i mark_pending st));
       final := final (run (uploadItem i) (update_items i mark_pending st));
       parked := parked (run (uploadItem i) (update_items i mark_pending st)) |}.
Proof.
  intros Hf Hs. unfold retryItem. cbn [run]. rewrite Hf.
  destruct (decide (status item = error)); [|done]. reflexivity.
Qed.

(** What [retryItem] does on anything else: nothing. *)
Lemma run_retryItem_noop (i : string) (st : IngestState) :
  (forall item, find_item i (items st) = Some item -> status item <> error) ->
  run (retryItem i) st = {| published := []; final := st; parked := None |}.
Proof.
  intros Hn. simpl.
  destruct (find_item i (items st)) as [item|] eqn:Hf; [|done].
  destruct (decide (status item = error)) as [Hs|]; [|done].
  by destruct (Hn item eq_refl).
Qed.

(** C8: [retryItem] publishes nothing and changes nothing unless the item
    it finds has the status [error].  When it has, the call first
    publishes the store in which every item of that id is [pending] with
    progress 0 and no error, and then runs [uploadItem] on that store,
    which publishes the store in which the item is [uploading] with
    progress 0 and parks at the upload. *)
Theorem retryItem_resets_then_uploads (i : string) (st : IngestState) :
  ((forall item, find_item i (items st) = Some item -> status item <> error) ->
   run (retryItem i) st = {| published := []; final := st; parked := None |})
  /\ (forall item,
        find_item i (items st) = Some item ->
        status item = error ->
        let reset := update_items i mark_pending st in
        let started := update_items i mark_uploading reset in
        run (retryItem i) st
        = {| published := reset :: published (run (uploadItem i) reset);
             final := final (run (uploadItem i) reset);
             parked := parked (run (uploadItem i) reset) |}
        /\ published (run (retryItem i) st) = [reset; started]
        /\ final (run (retryItem i) st) = started
        /\ parked (run (retryItem i) st)
           = Some (match type item with
                   | file => WaitTimeout 1000
                               (upload_done i (simulated_result (mark_pending item)))
                   | url => WaitIngestUrl (name item) (after_ingestUrl i)
                   end)
        /\ (forall x, x ∈ items reset -> id x = i ->
              status x = pending /\ progress x = 0 /\ item_error x = None)
        /\ (forall x, x ∈ items started -> id x = i ->
              status x = uploading /\ progress x = 0)).
Proof.
  split.
  - apply run_retryItem_noop.
  - intros item Hf Hs reset started.
    pose proof (run_retryItem_error i st item Hf Hs) as Hrun.
    fold reset in Hrun.
    assert (Hfound : find_item i (items reset) = Some (mark_pending item)).
    { unfold reset, update_items. simpl.
      rewrite find_item_update by done. by rewrite Hf. }
    pose proof (run_uploadItem_pending i reset (mark_pending item) Hfound eq_refl)
      as Hup.
    split; [exact Hrun|].
    rewrite Hrun, Hup. cbn [published final parked].
    split; [done|]. split; [done|]. split; [done|].
    split.
    + intros x Hx Hid.
      apply elem_of_update_items in Hx as (x0 & _ & ->).
      destruct (decide (id x0 = i)); [done|]. done.
    + intros x Hx Hid.
      apply elem_of_update_items in Hx as (x0 & _ & ->).
      destruct (decide (id x0 = i)); [done|]. done.
Qed.

End IngestRetry.

(** A queue with one failed URL. *)
Definition failed_url : Ingest.IngestItem :=
  {| Ingest.id := "url_1_r"; Ingest.name := "https://example.org/a";
     Ingest.type := Ingest.url; Ingest.size := None;
     Ingest.status := Ingest.error; Ingest.progress := 0;
     Ingest.result := None; Ingest.item_error := Some "Ingest failed: 500" |}.

Definition one_failed : Ingest.IngestState :=
  {| Ingest.items := [queue_item "file_a" Ingest.success 100; failed_url];
     Ingest.isUploading := false |}.

Lemma retryItem_resets_then_uploads_witness :
  Ingest.run (Ingest.retryItem "file_a") one_failed
  = {| Ingest.published := []; Ingest.final := one_failed; Ingest.parked := None |}
  /\ Ingest.published (Ingest.run (Ingest.retryItem "url_1_r") one_failed)
     = [Ingest.update_items "url_1_r" Ingest.mark_pending one_failed;
        Ingest.update_items "url_1_r" Ingest.mark_uploading
          (Ingest.update_items "url_1_r" Ingest.mark_pending one_failed)].
Proof.
  split.
  - apply (retryItem_resets_then_uploads "file_a" one_failed).
    intros item [= <-]. discriminate.
  - destruct (retryItem_resets_then_uploads "url_1_r" one_failed) as [_ Hretry].
    destruct (Hretry failed_url eq_refl eq_refl) as (_ & Hpublished & _).
    exact Hpublished.
Defined.

Section IngestInvariant.

Import Ingest.

(** The id of an item tells its kind: [addFiles] makes ids that begin
    with [file_], [addUrls] ids that begin with [url_]. *)
Definition kind_ok (item : IngestItem) : Prop :=
  match type item with
  | file => String.prefix "file_" (id item) = true
  | url => String.prefix "url_" (id item) = true
  end.

Definition error_ok (item : IngestItem) : Prop :=
  status item = error -> type item = url.

(** A parked call is an [uploadItem] at one of its two awaits; the one
    waiting for the backend was started for an id that begins with
    [url_]. *)
Definition task_ok (t : Suspended) : Prop :=
  match t with
  | WaitTimeout _ k => exists i r, k = upload_done i r
  | WaitIngestUrl _ k => exists i, String.prefix "url_" i = true /\ k = after_ingestUrl i
  end.

Record Inv (sys : System) : Prop := mkInv {
  inv_kind : Forall kind_ok (items (store sys));
  inv_error : Forall error_ok (items (store sys));
  inv_tasks : Forall (fun t => task_ok (waiting t)) (tasks sys);
}.

(** Code that keeps the two properties of the items and parks only in an
    expected way. *)
Definition safe (p : Prog) : Prop :=
  forall st : IngestState,
    Forall kind_ok (items st) ->
    Forall error_ok (items st) ->
    Forall kind_ok (items (final (run p st)))
    /\ Forall error_ok (items (final (run p st)))
    /\ (forall s, parked (run p st) = Some s -> task_ok s).

Lemma prefixes_disjoint (s : string) :
  String.prefix "file_" s = true -> String.prefix "url_" s = true -> False.
Proof.
  intros Hf%String.prefix_correct Hu%String.prefix_correct.
  destruct s as [|a s]; [discriminate|].
  simpl in Hf, Hu. congruence.
Qed.

Lemma prefix_append (p x : string) : String.prefix p (p +:+ x) = true.
Proof.
  apply String.prefix_correct.
  induction p as [|a p IH]; [by destruct x|].
  change (String a p +:+ x) with (String a (p +:+ x)). simpl. by rewrite IH.
Qed.

Lemma Forall_update_items (P : IngestItem -> Prop) (i : string)
    (f : IngestItem -> IngestItem) (st : IngestState) :
  Forall P (items st) ->
  (forall x, x ∈ items st -> id x = i -> P (f x)) ->
  Forall P (items (update_items i f st)).
Proof.
  intros HP Hf. apply Forall_forall. intros y Hy.
  apply elem_of_update_items in Hy as (x & Hx & ->).
  destruct (decide (id x = i)); [by apply Hf|].
  by apply (proj1 (Forall_forall P (items st)) HP).
Qed.

Lemma kind_ok_update (i : string) (f : IngestItem -> IngestItem)
    (st : IngestState) :
  (forall x, id (f x) = id x /\ type (f x) = type x) ->
  Forall kind_ok (items st) ->
  Forall kind_ok (items (update_items i f st)).
Proof.
  intros Hf Hk. apply Forall_update_items; [done|]. intros x Hx _.
  pose proof (proj1 (Forall_forall kind_ok (items st)) Hk x Hx) as Hkx.
  unfold kind_ok in *. destruct (Hf x) as [-> ->]. exact Hkx.
Qed.

Lemma error_ok_update (i : string) (f : IngestItem -> IngestItem)
    (st : IngestState) :
  (forall x, status (f x) <> error) ->
  Forall error_ok (items st) ->
  Forall error_ok (items (update_items i f st)).
Proof.
  intros Hf He. apply Forall_update_items; [done|]. intros x _ _ Hs.
  by destruct (Hf x).
Qed.

Lemma Forall_map_stamped {A : Type} (P : IngestItem -> Prop)
    (mk : A -> Stamp -> IngestItem) (l : list A) (stamps : list Stamp) :
  (forall a s, P (mk a s)) -> Forall P (map_stamped mk l stamps).
Proof.
  intros Hmk. revert stamps.
  induction l as [|a l IH]; intros [|s stamps]; simpl; constructor; auto.
Qed.

Lemma Forall_kept (P : IngestItem -> Prop) (Q : IngestItem -> Prop)
    `{forall x, Decision (Q x)} (l : list IngestItem) :
  Forall P l -> Forall P (filter Q l).
Proof.
  intros HP. apply Forall_forall. intros x [_ Hx]%list_elem_of_filter.
  by apply (proj1 (Forall_forall P l) HP).
Qed.

Lemma Forall_without {A : Type} (P : A -> Prop) (n : nat) (l : list A) :
  Forall P l -> Forall P (delete n l).
Proof.
  intros HP. apply Forall_forall. intros x Hx%list_elem_of_delete_inv.
  by apply (proj1 (Forall_forall P l) HP).
Qed.

Lemma Inv_boot : Inv boot.
Proof. split; constructor. Qed.

Lemma safe_upload_done (i : string) (r : IngestResponse) : safe (upload_done i r).
Proof.
  intros st Hk He. simpl. split; [by apply kind_ok_update|].
  split; [by apply error_ok_update|]. intros s [=].
Qed.

Lemma safe_after_ingestUrl (i : string) (r : Settled IngestResponse) :
  String.prefix "url_" i = true -> safe (after_ingestUrl i r).
Proof.
  intros Hi. destruct r as [res|e]; [apply safe_upload_done|].
  intros st Hk He. simpl. split; [by apply kind_ok_update|].
  split; [|intros s [=]].
  apply Forall_update_items; [done|]. intros x Hx Hid _. simpl.
  pose proof (proj1 (Forall_forall kind_ok _) Hk x Hx) as Hkx.
  unfold kind_ok in Hkx. destruct (type x); [|done].
  rewrite Hid in Hkx. destruct (prefixes_disjoint i Hkx Hi).
Qed.

Lemma safe_uploadItem (i : string) : safe (uploadItem i).
Proof.
  intros st Hk He.
  destruct (find_item i (items st)) as [item|] eqn:Hf.
  - destruct (decide (status item = pending)) as [Hs|Hs].
    + rewrite (run_uploadItem_pending i st item Hf Hs). cbn [final parked].
      destruct (find_item_Some _ _ _ Hf) as [Hid Hin].
      split; [by apply kind_ok_update|]. split; [by apply error_ok_update|].
      intros s [= <-].
      pose proof (proj1 (Forall_forall kind_ok (items st)) Hk item Hin) as Hki.
      unfold kind_ok in Hki.
      destruct (type item); simpl.
      * by do 2 eexists.
      * exists i. split; [by rewrite <- Hid|done].
    + rewrite run_uploadItem_noop.
      * split; [done|]. split; [done|]. intros s [=].
      * intros item' Hf'. rewrite Hf in Hf'. by injection Hf' as <-.
  - rewrite run_uploadItem_noop.
    + split; [done|]. split; [done|]. intros s [=].
    + intros item' Hf'. by rewrite Hf in Hf'.
Qed.

Lemma safe_retryItem (i : string) : safe (retryItem i).
Proof.
  intros st Hk He.
  destruct (find_item i (items st)) as [item|] eqn:Hf.
  - destruct (decide (status item = error)) as [Hs|Hs].
    + rewrite (run_retryItem_error i st item Hf Hs). cbn [final parked].
      apply safe_uploadItem; [by apply kind_ok_update|by apply error_ok_update].
    + rewrite run_retryItem_noop.
      * split; [done|]. split; [done|]. intros s [=].
      * intros item' Hf'. rewrite Hf in Hf'. by injection Hf' as <-.
  - rewrite run_retryItem_noop.
    + split; [done|]. split; [done|]. intros s [=].
    + intros item' Hf'. by rewrite Hf in Hf'.
Qed.

Lemma Inv_ended (tag : option nat) (sys : System) : Inv sys -> Inv (ended tag sys).
Proof.
  intros [Hk He Ht]. destruct tag as [b|]; [|done].
  unfold ended. split; cbn [store tasks]; [| |done];
    by destruct (decide _).
Qed.

Lemma Inv_exec (p : Prog) (tag : option nat) (sys : System) :
  safe p -> Inv sys -> Inv (exec p tag sys).
Proof.
  intros Hp [Hk He Ht]. destruct (Hp (store sys) Hk He) as (Hk' & He' & Hs').
  unfold exec. destruct (parked (run p (store sys))) as [s|].
  - split; cbn [store tasks]; [done|done|].
    apply Forall_app. split; [done|]. constructor; [|constructor].
    by apply Hs'.
  - apply Inv_ended. by split.
Qed.

Lemma Inv_on_store (f : IngestState -> IngestState) (sys : System) :
  Forall kind_ok (items (f (store sys))) ->
  Forall error_ok (items (f (store sys))) ->
  Inv sys -> Inv (on_store f sys).
Proof. intros Hk He [_ _ Ht]. by split. Qed.

Lemma Inv_resumed (n : nat) (sys : System) : Inv sys -> Inv (resumed n sys).
Proof.
  intros [Hk He Ht]. split; [done|done|]. cbn [resumed tasks].
  by apply Forall_without.
Qed.

Lemma Inv_uploads (b : nat) (l : list IngestItem) (sys : System) :
  Inv sys ->
  Inv (fold_left (fun s item => exec (uploadItem (id item)) (Some b) s) l sys).
Proof.
  revert sys. induction l as [|x l IH]; intros sys HI; [done|].
  simpl. apply IH. apply Inv_exec; [apply safe_uploadItem|done].
Qed.

Lemma Inv_uploadAll (sys : System) : Inv sys -> Inv (uploadAll sys).
Proof.
  intros HI. unfold uploadAll.
  destruct (decide _); [done|].
  apply Inv_uploads. destruct HI. by split.
Qed.

Lemma Inv_step (sys sys' : System) : Inv sys -> step sys sys' -> Inv sys'.
Proof.
  intros HI Hstep.
  destruct Hstep as [files stamps sys|urls stamps sys|i sys|sys|sys|i sys|i sys
                    |n ms k tag sys Hn|n u k tag r sys Hn].
  - destruct HI as [Hk He Ht].
    split; simpl; [| |done]; apply Forall_app; (split; [done|]);
      apply Forall_map_stamped; intros f s.
    + exact (prefix_append "file_" _).
    + intros [=].
  - destruct HI as [Hk He Ht].
    split; simpl; [| |done]; apply Forall_app; (split; [done|]);
      apply Forall_map_stamped; intros u s.
    + exact (prefix_append "url_" _).
    + intros [=].
  - destruct HI as [Hk He Ht]. split; simpl; [| |done]; by apply Forall_kept.
  - destruct HI as [Hk He Ht]. split; simpl; [| |done]; constructor.
  - by apply Inv_uploadAll.
  - apply Inv_exec; [apply safe_uploadItem|done].
  - apply Inv_exec; [apply safe_retryItem|done].
  - destruct HI as [Hk He Ht].
    pose proof (proj1 (Forall_forall _ _) Ht _ (list_elem_of_lookup_2 _ _ _ Hn))
      as (i & r & ->).
    apply Inv_exec; [apply safe_upload_done|]. apply Inv_resumed. by split.
  - destruct HI as [Hk He Ht].
    pose proof (proj1 (Forall_forall _ _) Ht _ (list_elem_of_lookup_2 _ _ _ Hn))
      as (i & Hi & ->).
    apply Inv_exec; [by apply safe_after_ingestUrl|]. apply Inv_resumed. by split.
Qed.

Lemma Inv_reachable (sys : System) : reachable sys -> Inv sys.
Proof.
  induction 1 as [|sys sys' _ IH Hstep]; [apply Inv_boot|].
  by apply (Inv_step sys sys').
Qed.

(** C10: [uploadItem] on a pending item of kind [file] publishes the
    [uploading] store and parks at the one-second timer, never at the
    backend call; when the timer fires, whatever the store is by then, the
    call sets every item of that id to [success] with progress 100 and
    the result made from the file's name, and ends.  In every store the
    queue can reach, an item with the status [error] is of kind [url]. *)
Theorem file_uploads_never_fail :
  (forall (st : IngestState) (i : string) (item : IngestItem),
     find_item i (items st) = Some item ->
     status item = pending ->
     type item = file ->
     exists k,
       run (uploadItem i) st
       = {| published := [update_items i mark_uploading st];
            final := update_items i mark_uploading st;
            parked := Some (WaitTimeout 1000 k) |}
       /\ forall st' : IngestState,
            let st'' := update_items i (mark_success (simulated_result item)) st' in
            run k st' = {| published := [st'']; final := st''; parked := None |}
            /\ forall x, x ∈ items st'' -> id x = i ->
                 status x = success /\ progress x = 100
                 /\ result x
                    = Some {| ingested := [ {| filename := name item;
                                               doc_id := name item;
                                               chunks := 1;
                                               source := name item |} ];
                              skipped := []; errors := [] |})
  /\ (forall sys : System,
        reachable sys ->
        forall item, item ∈ items (store sys) ->
        status item = error -> type item = url).
Proof.
  split.
  - intros st i item Hf Hs Hfile.
    exists (upload_done i (simulated_result item)).
    split.
    + rewrite (run_uploadItem_pending i st item Hf Hs). by rewrite Hfile.
    + intros st' st''. split; [done|].
      intros x Hx Hid.
      apply elem_of_update_items in Hx as (x0 & _ & ->).
      destruct (decide (id x0 = i)); done.
  - intros sys Hreach item Hin Herr.
    destruct (Inv_reachable sys Hreach) as [_ He _].
    by apply (proj1 (Forall_forall error_ok _) He item Hin).
Qed.

End IngestInvariant.

(** A file and a URL after [addFiles] and [addUrls]. *)
Definition a_file : Ingest.File := {| Ingest.file_name := "notes.md"; Ingest.file_size := 12 |}.

Definition a_stamp : Ingest.Stamp := {| Ingest.now := 7; Ingest.rnd := "k3" |}.

Definition file_queued : Ingest.IngestState :=
  Ingest.addFiles [a_file] [a_stamp] Ingest.initial.

(** The queue after a URL was added, its upload started and the backend
    call rejected. *)
Definition url_added : Ingest.System :=
  Ingest.on_store (Ingest.addUrls ["https://example.org/a"] [a_stamp]) Ingest.boot.

Definition url_uploading : Ingest.System :=
  Ingest.exec (Ingest.uploadItem "url_7_k3") None url_added.

Definition url_rejected : Ingest.System :=
  Ingest.exec
    (Ingest.after_ingestUrl "url_7_k3"
       (Ingest.Rejected (Ingest.JsError "Ingest failed: 500")))
    None
    (Ingest.resumed 0 url_uploading).

Lemma url_rejected_reachable : Ingest.reachable url_rejected.
Proof.
  apply (Ingest.reachable_step url_uploading).
  - apply (Ingest.reachable_step url_added).
    + apply (Ingest.reachable_step Ingest.boot); [apply Ingest.reachable_boot|].
      apply (Ingest.step_addUrls ["https://example.org/a"] [a_stamp]).
    + apply (Ingest.step_uploadItem "url_7_k3").
  - apply (Ingest.step_ingestUrl 0 "https://example.org/a"
             (Ingest.after_ingestUrl "url_7_k3") None
             (Ingest.Rejected (Ingest.JsError "Ingest failed: 500"))).
    reflexivity.
Defined.

Lemma file_uploads_never_fail_witness :
  (exists k,
     Ingest.parked (Ingest.run (Ingest.uploadItem "file_7_k3") file_queued)
     = Some (Ingest.WaitTimeout 1000 k)
     /\ Ingest.status <$>
          Ingest.items (Ingest.final (Ingest.run k
             (Ingest.final (Ingest.run (Ingest.uploadItem "file_7_k3") file_queued))))
        = [Ingest.success])
  /\ (forall item,
        item ∈ Ingest.items (Ingest.store url_rejected) ->
        Ingest.status item = Ingest.error -> Ingest.type item = Ingest.url).
Proof.
  destruct file_uploads_never_fail as [Hfile Herror].
  split.
  - destruct (Hfile file_queued "file_7_k3"
                (Ingest.new_file_item a_file a_stamp) eq_refl eq_refl eq_refl)
      as (k & Hrun & Hk).
    exists k. split; [by rewrite Hrun|].
    rewrite Hrun. cbn [Ingest.final].
    destruct (Hk (Ingest.update_items "file_7_k3" Ingest.mark_uploading file_queued))
      as [Hdone _].
    rewrite Hdone. reflexivity.
  - apply (Herror url_rejected url_rejected_reachable).
Defined.

(** * Facts about the request headers *)

Definition no_key : Api.Settings := {| Api.apiBaseUrl := ""; Api.apiKey := "" |}.

(** C9, as stated, fails: with no key configured, the one-shot query is
    sent with the header all the same, carrying a substitute value. *)
Lemma query_sends_substitute_key :
  Api.core_request Api.query = true
  /\ Api.truthy (Api.apiKey no_key) = false
  /\ Api.request_headers Api.query no_key !! "x-api-key" = Some "changeme"
  /\ Api.request_headers Api.query no_key !! "x-api-key" <> None.
Proof.
  split; [reflexivity|]. split; [reflexivity|].
  assert (Api.request_headers Api.query no_key !! "x-api-key" = Some "changeme")
    as Hq by (vm_compute; reflexivity).
  split; [exact Hq|]. rewrite Hq. discriminate.
Qed.

(** C9 (amended): the stream request and the upload carry the API-key
    header exactly when a key is configured, with the key as its value;
    the health check carries no header; every other request, the one-shot
    query among them, always carries the header, with the configured key
    or, when there is none, with the text [changeme]. *)
Theorem api_key_header (r : Api.Request) (settings : Api.Settings) :
  Api.request_headers r settings !! "x-api-key"
  = match r with
    | Api.health => None
    | Api.ingest | Api.chat_stream =>
        if Api.truthy (Api.apiKey settings)
        then Some (Api.apiKey settings) else None
    | _ =>
        Some (if Api.truthy (Api.apiKey settings)
              then Api.apiKey settings else "changeme")
    end.
Proof.
  destruct r; unfold Api.request_headers, Api.getHeaders, Api.ingest_headers,
    Api.stream_headers, Api.or_else;
    destruct (Api.truthy (Api.apiKey settings));
    by simplify_map_eq.
Qed.

(** * Facts about the streaming client *)

(** A line of the wire format: the text and its newline. *)
Definition line (s : string) : string := s +:+ String SSE.newline EmptyString.

Definition every_callback : SSE.SSECallbacks :=
  SSE.mkCallbacks true true true true true true true.

Section StreamParser.

Context {J : Type}.
Variable JSON_parse : string -> option J.

(** The payload handed to [onMessage] for the data text [d]. *)
Definition message_payload (d : string) : SSE.Payload :=
  match JSON_parse d with
  | Some j => SSE.Parsed j
  | None => SSE.Text d
  end.

(** C2 fails on the code: one event, given whole, is dispatched; the same
    bytes cut after the [event:] line, or inside the [data:] line,
    dispatch nothing. *)
Theorem split_between_event_and_data_loses_the_event (cbs : SSE.SSECallbacks) :
  SSE.dispatched JSON_parse cbs [line "event: message" +:+ line "data: hi"]
  = SSE.call (SSE.onMessage cbs) (SSE.OnMessage (message_payload "hi"))
  /\ SSE.dispatched JSON_parse cbs [line "event: message"; line "data: hi"] = []
  /\ SSE.dispatched JSON_parse cbs [line "event: message" +:+ "data: h"; line "i"] = [].
Proof.
  destruct cbs as [[] ? ? ? ? ? ?]; unfold message_payload;
    (split; [|split]); vm_compute;
    try destruct (JSON_parse "hi"); reflexivity.
Qed.

(** Two events of the same kind in one chunk: the second is dispatched
    with the data of the first, since the data line is looked up after
    the first line equal to the event line.  Cut between the events, the
    same bytes dispatch both payloads. *)
Lemma repeated_event_line_takes_first_data (cbs : SSE.SSECallbacks) :
  SSE.dispatched JSON_parse cbs
    [line "event: message" +:+ line "data: a"
     +:+ line "event: message" +:+ line "data: b"]
  = SSE.call (SSE.onMessage cbs) (SSE.OnMessage (message_payload "a"))
    ++ SSE.call (SSE.onMessage cbs) (SSE.OnMessage (message_payload "a"))
  /\ SSE.dispatched JSON_parse cbs
       [line "event: message" +:+ line "data: a";
        line "event: message" +:+ line "data: b"]
     = SSE.call (SSE.onMessage cbs) (SSE.OnMessage (message_payload "a"))
       ++ SSE.call (SSE.onMessage cbs) (SSE.OnMessage (message_payload "b")).
Proof.
  destruct cbs as [[] ? ? ? ? ? ?]; unfold message_payload;
    split; vm_compute;
    try destruct (JSON_parse "a"); try destruct (JSON_parse "b");
    reflexivity.
Qed.

End StreamParser.

Section StreamClient.

Context {J : Type}.
Variable JSON_parse : string -> option J.
Variable url_valid : string -> bool.

Local Abbreviation step := (SSE.step JSON_parse url_valid).
Local Abbreviation run := (SSE.run JSON_parse url_valid).
Local Abbreviation connect := (SSE.connect url_valid).
Local Abbreviation Trace := (@SSE.Trace J).

(** The connection record a [connect] call starts with. *)
Definition started (settings : Api.Settings) (q : string)
    (cbs : SSE.SSECallbacks) : SSE.Connection :=
  {| SSE.query := q; SSE.callbacks := cbs;
     SSE.headers := Api.stream_headers settings;
     SSE.aborted := false; SSE.phase := SSE.Fetching |}.

(** The client is waiting for the [fetch] of its connection [i], started
    for [q] and [cbs], the last one it started. *)
Definition attempting (settings : Api.Settings) (q : string)
    (cbs : SSE.SSECallbacks) (i : nat) (w : SSE.World) : Prop :=
  SSE.retryCount w = 0
  /\ SSE.abortController w = Some i
  /\ length (SSE.connections w) = S i
  /\ SSE.connections w !! i = Some (started settings q cbs).

Definition retry_timer (q : string) (cbs : SSE.SSECallbacks) : SSE.Timer :=
  {| SSE.delay := 1000; SSE.timer_query := q; SSE.timer_callbacks := cbs |}.

Lemma run_app (evs1 evs2 : list SSE.Event) (w : SSE.World) :
  run (evs1 ++ evs2) w
  = match run evs1 w with
    | Some (w', t) =>
        match run evs2 w' with
        | Some (w'', t') => Some (w'', t ++ t')
        | None => None
        end
    | None => None
    end.
Proof.
  revert w. induction evs1 as [|ev evs1 IH]; intros w; simpl.
  - by destruct (run evs2 w) as [[? ?]|].
  - destruct (step ev w) as [[w1 t1]|]; [|done].
    rewrite IH. destruct (run evs1 w1) as [[w2 t2]|]; [|done].
    destruct (run evs2 w2) as [[w3 t3]|]; [|done].
    by rewrite app_assoc.
Qed.

Lemma length_disconnect (w : SSE.World) :
  length (SSE.connections (SSE.disconnect w)) = length (SSE.connections w).
Proof.
  unfold SSE.disconnect. simpl.
  destruct (SSE.abortController w); [apply length_alter|done].
Qed.

Lemma connect_attempting (settings : Api.Settings) (q : string)
    (cbs : SSE.SSECallbacks) (w : SSE.World) :
  url_valid (Api.apiBaseUrl settings +:+ "/chat/stream") = true ->
  attempting settings q cbs (length (SSE.connections w)) (connect settings q cbs w)
  /\ SSE.timers (connect settings q cbs w) = SSE.timers w.
Proof.
  intros Hurl. unfold SSE.connect. cbv zeta. rewrite Hurl.
  pose proof (length_disconnect w) as Hlen.
  unfold attempting.
  cbn [SSE.retryCount SSE.abortController SSE.connections SSE.timers].
  split; [|done].
  split; [done|]. split; [by rewrite Hlen|].
  split.
  - rewrite length_app, Hlen. simpl. lia.
  - rewrite <- Hlen. by apply list_lookup_middle.
Qed.

(** A failed [fetch] of the current attempt sets the retry timer and
    calls nothing: the counter was reset by the [disconnect] that opens
    every [connect]. *)
Lemma failure_sets_timer (settings : Api.Settings) (q : string)
    (cbs : SSE.SSECallbacks) (e : SSE.Thrown) (i : nat) (w : SSE.World) :
  attempting settings q cbs i w ->
  e <> SSE.AbortError ->
  exists w',
    step (SSE.FetchSettles i (SSE.FetchRejected e)) w = Some (w', [])
    /\ SSE.retryCount w' = 1
    /\ SSE.abortController w' = Some i
    /\ length (SSE.connections w') = S i
    /\ SSE.timers w' = SSE.timers w ++ [retry_timer q cbs].
Proof.
  intros (Hr & Ha & Hl & Hc) He.
  simpl. unfold SSE.fetch_settles. rewrite Hc. simpl.
  unfold SSE.on_catch.
  destruct e; [done| |]; simpl; rewrite Hr; simpl;
    (eexists; split; [reflexivity|]); simpl;
    rewrite length_alter; done.
Qed.

Lemma failed_round (settings : Api.Settings) (q : string)
    (cbs : SSE.SSECallbacks) (e : SSE.Thrown) (i : nat) (w : SSE.World) :
  url_valid (Api.apiBaseUrl settings +:+ "/chat/stream") = true ->
  attempting settings q cbs i w ->
  e <> SSE.AbortError ->
  exists w',
    run [SSE.FetchSettles i (SSE.FetchRejected e);
         SSE.TimerFires (length (SSE.timers w)) settings] w
    = Some (w', [])
    /\ attempting settings q cbs (S i) w'
    /\ SSE.timers w' = SSE.timers w.
Proof.
  intros Hurl Hatt He.
  destruct (failure_sets_timer settings q cbs e i w Hatt He)
    as (w1 & Hstep & Hr1 & Ha1 & Hl1 & Ht1).
  cbn [SSE.run]. rewrite Hstep.
  cbn [SSE.step]. unfold SSE.timer_fires.
  rewrite Ht1, list_lookup_middle by done.
  rewrite (delete_middle (SSE.timers w) [] (retry_timer q cbs)), app_nil_r.
  cbn [SSE.timer_query SSE.timer_callbacks retry_timer].
  eexists. split; [reflexivity|].
  match goal with
  | |- attempting _ _ _ _ (SSE.connect _ _ _ _ ?w0) /\ _ =>
      destruct (connect_attempting settings q cbs w0 Hurl) as [Hatt' Ht'];
      cbn [SSE.connections SSE.timers] in Hatt', Ht'
  end.
  rewrite Hl1 in Hatt'. split; [exact Hatt'|exact Ht'].
Qed.

Lemma failed_attempts_S (settings : Api.Settings) (e : SSE.Thrown)
    (i0 t0 n : nat) :
  SSE.failed_attempts settings e i0 t0 (S n)
  = SSE.failed_attempts settings e i0 t0 n
    ++ [SSE.FetchSettles (i0 + n) (SSE.FetchRejected e);
        SSE.TimerFires t0 settings].
Proof.
  unfold SSE.failed_attempts.
  rewrite seq_S, flat_map_app. reflexivity.
Qed.

Lemma failed_attempts_keep_attempting (settings : Api.Settings) (q : string)
    (cbs : SSE.SSECallbacks) (e : SSE.Thrown) (i0 : nat) (w : SSE.World)
    (n : nat) :
  url_valid (Api.apiBaseUrl settings +:+ "/chat/stream") = true ->
  attempting settings q cbs i0 w ->
  e <> SSE.AbortError ->
  exists w',
    run (SSE.failed_attempts settings e i0 (length (SSE.timers w)) n) w
    = Some (w', [])
    /\ attempting settings q cbs (i0 + n) w'
    /\ SSE.timers w' = SSE.timers w.
Proof.
  intros Hurl Hatt He. induction n as [|n (w1 & Hrun & Hatt1 & Ht1)].
  - exists w. rewrite Nat.add_0_r. done.
  - destruct (failed_round settings q cbs e (i0 + n) w1 Hurl Hatt1 He)
      as (w2 & Hrun2 & Hatt2 & Ht2).
    exists w2. rewrite failed_attempts_S, run_app, Hrun.
    rewrite Ht1 in Hrun2. rewrite Hrun2.
    rewrite Nat.add_succ_r. split; [done|]. split; [done|]. congruence.
Qed.

(** C1 fails on the code: after [connect], any number [n] of consecutive
    failed attempts, each followed by its retry timer, calls neither the
    error nor the close callback and leaves the client in yet another
    attempt; when that attempt fails as well, the retry timer is set
    again, with the delay of a first retry. *)
Theorem retries_never_run_out (settings : Api.Settings) (q : string)
    (cbs : SSE.SSECallbacks) (e : SSE.Thrown) (w : SSE.World) (n : nat) :
  url_valid (Api.apiBaseUrl settings +:+ "/chat/stream") = true ->
  e <> SSE.AbortError ->
  let i0 := length (SSE.connections w) in
  let t0 := length (SSE.timers w) in
  let attempts :=
    SSE.Connect settings q cbs :: SSE.failed_attempts settings e i0 t0 n in
  exists w' w'',
    run attempts w = Some (w', [])
    /\ attempting settings q cbs (i0 + n) w'
    /\ SSE.timers w' = SSE.timers w
    /\ run (attempts ++ [SSE.FetchSettles (i0 + n) (SSE.FetchRejected e)]) w
       = Some (w'', [])
    /\ SSE.retryCount w'' = 1
    /\ SSE.timers w'' = SSE.timers w ++ [retry_timer q cbs].
Proof.
  intros Hurl He i0 t0 attempts.
  destruct (connect_attempting settings q cbs w Hurl) as [Hatt0 Ht0].
  destruct (failed_attempts_keep_attempting settings q cbs e i0
              (connect settings q cbs w) n Hurl Hatt0 He)
    as (w1 & Hrun1 & Hatt1 & Ht1).
  rewrite Ht0 in Hrun1. fold t0 in Hrun1.
  destruct (failure_sets_timer settings q cbs e (i0 + n) w1 Hatt1 He)
    as (w2 & Hstep2 & Hr2 & _ & _ & Ht2).
  assert (Hattempts : run attempts w = Some (w1, [])).
  { unfold attempts. cbn [SSE.run SSE.step]. by rewrite Hrun1. }
  exists w1, w2.
  split; [exact Hattempts|]. split; [exact Hatt1|].
  split; [congruence|].
  split.
  - rewrite run_app, Hattempts. cbn [SSE.run]. by rewrite Hstep2.
  - split; [exact Hr2|]. congruence.
Qed.

(** The settling of what connection [i] is waiting for: its [fetch] or
    its [read], with whatever the network had for it. *)
Definition settles (i : nat) (c : SSE.Connection) (rf : SSE.FetchResult)
    (rr : SSE.ReadResult) : SSE.Event :=
  match SSE.phase c with
  | SSE.Fetching => SSE.FetchSettles i rf
  | _ => SSE.ReadSettles i rr
  end.

Lemma disconnect_aborts (w : SSE.World) (i : nat) (c : SSE.Connection) :
  SSE.connections w !! i = Some c ->
  SSE.abortController w = Some i ->
  SSE.connections (SSE.disconnect w) !! i = Some (SSE.abort_signal c)
  /\ SSE.retryCount (SSE.disconnect w) = 0
  /\ SSE.abortController (SSE.disconnect w) = None
  /\ SSE.timers (SSE.disconnect w) = SSE.timers w.
Proof.
  intros Hc Ha. unfold SSE.disconnect. simpl. rewrite Ha.
  by rewrite list_lookup_alter_eq, Hc.
Qed.

(** An aborted connection that is still waiting ends with the close
    callback alone, and touches nothing of the client but its own phase. *)
Lemma aborted_settles (w : SSE.World) (i : nat) (c : SSE.Connection)
    (rf : SSE.FetchResult) (rr : SSE.ReadResult) :
  SSE.connections w !! i = Some (SSE.abort_signal c) ->
  SSE.phase c <> SSE.Finished ->
  step (settles i c rf rr) w
  = Some (SSE.set_phase i SSE.Finished w,
          SSE.by_connection i (SSE.call (SSE.onClose (SSE.callbacks c)) SSE.OnClose)).
Proof.
  intros Hc Hp. unfold settles.
  destruct (SSE.phase c) as [|buffer|] eqn:Hphase; [| |done]; simpl.
  - unfold SSE.fetch_settles. rewrite Hc. simpl. by rewrite Hphase.
  - unfold SSE.read_settles. rewrite Hc. simpl. by rewrite Hphase.
Qed.

Lemma attempting_set_phase (settings : Api.Settings) (q : string)
    (cbs : SSE.SSECallbacks) (i j : nat) (p : SSE.Phase) (w : SSE.World) :
  i <> j ->
  attempting settings q cbs j w ->
  attempting settings q cbs j (SSE.set_phase i p w).
Proof.
  intros Hij (Hr & Ha & Hl & Hc). unfold attempting, SSE.set_phase. simpl.
  rewrite length_alter, list_lookup_alter_ne by done. done.
Qed.

(** C6: when the page cancels the connection the client holds, be it
    waiting for its [fetch] or in its read loop, the wait ends with the
    close callback, if there is one, and nothing else: no error callback,
    no retry timer, the counter at 0.  A [connect] made after the
    cancellation starts a new connection whose signal is not aborted and
    whose response opens the stream; the cancelled connection ending
    later leaves it as it is. *)
Theorem cancel_closes_without_error_or_retry (w : SSE.World) (i : nat)
    (c : SSE.Connection) (rf : SSE.FetchResult) (rr : SSE.ReadResult) :
  SSE.connections w !! i = Some c ->
  SSE.abortController w = Some i ->
  SSE.phase c <> SSE.Finished ->
  let w1 := SSE.disconnect w in
  let closed : Trace :=
    SSE.by_connection i (SSE.call (SSE.onClose (SSE.callbacks c)) SSE.OnClose) in
  (exists w2,
     step (settles i c rf rr) w1 = Some (w2, closed)
     /\ existsb SSE.is_error_call closed = false
     /\ existsb SSE.is_close_call closed = SSE.onClose (SSE.callbacks c)
     /\ SSE.timers w2 = SSE.timers w
     /\ SSE.retryCount w2 = 0
     /\ SSE.abortController w2 = None
     /\ SSE.phase <$> SSE.connections w2 !! i = Some SSE.Finished)
  /\ (forall (settings : Api.Settings) (q : string) (cbs : SSE.SSECallbacks),
        url_valid (Api.apiBaseUrl settings +:+ "/chat/stream") = true ->
        let w3 := connect settings q cbs w1 in
        let j := length (SSE.connections w) in
        attempting settings q cbs j w3
        /\ (forall status : Z,
              step (SSE.FetchSettles j (SSE.FetchResponse true status true)) w3
              = Some (SSE.set_phase j (SSE.Reading EmptyString) w3,
                      SSE.by_connection j (SSE.call (SSE.onOpen cbs) SSE.OnOpen)))
        /\ exists w4,
             step (settles i c rf rr) w3 = Some (w4, closed)
             /\ attempting settings q cbs j w4
             /\ SSE.timers w4 = SSE.timers w).
Proof.
  intros Hc Ha Hp w1 closed.
  destruct (disconnect_aborts w i c Hc Ha) as (Hc1 & Hr1 & Ha1 & Ht1).
  fold w1 in Hc1, Hr1, Ha1, Ht1.
  split.
  - exists (SSE.set_phase i SSE.Finished w1).
    split; [by apply aborted_settles|].
    split; [unfold closed; by destruct (SSE.onClose (SSE.callbacks c))|].
    split; [unfold closed; by destruct (SSE.onClose (SSE.callbacks c))|].
    split; [done|]. split; [done|]. split; [done|].
    unfold SSE.set_phase. cbn [SSE.connections].
    by rewrite list_lookup_alter_eq, Hc1.
  - intros settings q cbs Hurl w3 j.
    destruct (connect_attempting settings q cbs w1 Hurl) as [Hatt Ht3].
    fold w3 in Hatt, Ht3.
    assert (Hj : length (SSE.connections w1) = j) by apply length_disconnect.
    rewrite Hj in Hatt.
    assert (Hij : i <> j).
    { apply lookup_lt_Some in Hc. unfold j. lia. }
    assert (Hc3 : SSE.connections w3 !! i = Some (SSE.abort_signal c)).
    { unfold w3, SSE.connect. cbv zeta. rewrite Hurl.
      cbn [SSE.connections].
      apply lookup_app_l_Some.
      unfold SSE.disconnect at 1. cbn [SSE.connections]. by rewrite Ha1. }
    split; [exact Hatt|]. split.
    + intros status. destruct Hatt as (_ & _ & _ & Hcj).
      simpl. unfold SSE.fetch_settles. by rewrite Hcj.
    + exists (SSE.set_phase i SSE.Finished w3).
      split; [by apply aborted_settles|].
      split; [by apply attempting_set_phase|].
      simpl. congruence.
Qed.

End StreamClient.

(** A client in its read loop: connected on a fresh client, response
    received. *)
Definition accept_all (_ : string) : bool := true.

Definition no_json (_ : string) : option unit := None.

Definition remote : Api.Settings :=
  {| Api.apiBaseUrl := "https://rag.example.org"; Api.apiKey := "k" |}.

Definition streaming : SSE.World :=
  SSE.set_phase 0 (SSE.Reading EmptyString)
    (SSE.connect accept_all remote "What is RAG?" every_callback SSE.fresh).

Lemma retries_never_run_out_witness :
  exists w' : SSE.World,
    SSE.run no_json accept_all
      (SSE.Connect remote "What is RAG?" every_callback
       :: SSE.failed_attempts remote (SSE.JsError "Failed to fetch") 0 0 3)
      SSE.fresh
    = Some (w', [])
    /\ SSE.abortController w' = Some 3%nat.
Proof.
  destruct (retries_never_run_out no_json accept_all remote "What is RAG?"
              every_callback (SSE.JsError "Failed to fetch") SSE.fresh 3
              eq_refl)
    as (w' & _ & Hrun & Hatt & _).
  - discriminate.
  - exists w'. split; [exact Hrun|]. exact (proj1 (proj2 Hatt)).
Defined.

Lemma cancel_closes_without_error_or_retry_witness :
  exists w2 : SSE.World,
    SSE.step no_json accept_all (SSE.ReadSettles 0 (SSE.ReadChunk "event: mes"))
      (SSE.disconnect streaming)
    = Some (w2, [(0%nat, SSE.OnClose)])
    /\ SSE.timers w2 = [].
Proof.
  destruct (cancel_closes_without_error_or_retry no_json accept_all streaming 0
              (SSE.with_phase (SSE.Reading EmptyString)
                 (started remote "What is RAG?" every_callback))
              (SSE.FetchRejected SSE.NonError) (SSE.ReadChunk "event: mes")
              eq_refl eq_refl)
    as [(w2 & Hstep & _ & _ & Ht & _) _].
  - discriminate.
  - exists w2. split; [exact Hstep|exact Ht].
Defined.

(** * Further facts about the conversation store *)

Section ChatMore.

Context {Citation RetrievalDebug : Type}.

Local Abbreviation Message := (Chat.Message Citation RetrievalDebug).
Local Abbreviation NewMessage := (Chat.NewMessage Citation RetrievalDebug).
Local Abbreviation MessageUpdate := (Chat.MessageUpdate Citation RetrievalDebug).
Local Abbreviation Conversation := (Chat.Conversation Citation RetrievalDebug).
Local Abbreviation ChatState := (Chat.ChatState Citation RetrievalDebug).
Local Abbreviation AddCall := (@AddCall Citation RetrievalDebug).

(** [newConversations[0]?.id || null] *)
Definition first_id (l : list Conversation) : option string :=
  match l with
  | c :: _ => if decide (Chat.conv_id c = EmptyString) then None else Some (Chat.conv_id c)
  | [] => None
  end.

(** The message an [addMessage] call builds. *)
Definition message_of (c : AddCall) : Message :=
  Chat.make_message (call_message c) (call_now_id c) (call_now_ts c) (call_rnd c).

(** The second update laid over the first: a key of [u2] wins. *)
Definition over (u2 u1 : MessageUpdate) : MessageUpdate :=
  {| Chat.upd_id := from_option Some (Chat.upd_id u1) (Chat.upd_id u2);
     Chat.upd_role := from_option Some (Chat.upd_role u1) (Chat.upd_role u2);
     Chat.upd_content := from_option Some (Chat.upd_content u1) (Chat.upd_content u2);
     Chat.upd_timestamp := from_option Some (Chat.upd_timestamp u1) (Chat.upd_timestamp u2);
     Chat.upd_citations := from_option Some (Chat.upd_citations u1) (Chat.upd_citations u2);
     Chat.upd_retrievalDebug :=
       from_option Some (Chat.upd_retrievalDebug u1) (Chat.upd_retrievalDebug u2);
     Chat.upd_isStreaming :=
       from_option Some (Chat.upd_isStreaming u1) (Chat.upd_isStreaming u2);
     Chat.upd_error := from_option Some (Chat.upd_error u1) (Chat.upd_error u2) |}.

Lemma find_kept_other (cid other : string) (l : list Conversation) :
  other <> cid ->
  find (fun conv => bool_decide (Chat.conv_id conv = other))
       (filter (fun conv => Chat.conv_id conv <> cid) l)
  = find (fun conv => bool_decide (Chat.conv_id conv = other)) l.
Proof.
  intros Hne. induction l as [|c l IH]; [done|].
  rewrite filter_cons. destruct (decide (Chat.conv_id c <> cid)) as [Hc|Hc]; simpl.
  - by rewrite IH.
  - rewrite bool_decide_eq_false_2; [done|].
    intros Heq. apply Hc. congruence.
Qed.

Lemma find_kept_removed (cid : string) (l : list Conversation) :
  find (fun conv => bool_decide (Chat.conv_id conv = cid))
       (filter (fun conv => Chat.conv_id conv <> cid) l) = None.
Proof.
  induction l as [|c l IH]; [done|].
  rewrite filter_cons. destruct (decide (Chat.conv_id c <> cid)) as [Hc|Hc]; [|done].
  simpl. by rewrite bool_decide_eq_false_2.
Qed.

Lemma filter_absent (cid : string) (l : list Conversation) :
  find (fun conv => bool_decide (Chat.conv_id conv = cid)) l = None ->
  filter (fun conv => Chat.conv_id conv <> cid) l = l.
Proof.
  induction l as [|c l IH]; [done|]. simpl.
  case_bool_decide as Hc; [done|]. intros Hf.
  rewrite filter_cons_True by done. by rewrite IH.
Qed.

Lemma first_id_kept (cid : string) (l : list Conversation) :
  first_id (filter (fun conv => Chat.conv_id conv <> cid) l) <> Some cid.
Proof.
  destruct (filter _ l) as [|c l'] eqn:Hf; [done|]. simpl.
  destruct (decide _); [done|]. intros [= Hc].
  assert (c ∈ filter (fun conv => Chat.conv_id conv <> cid) l) as Hin
    by (rewrite Hf; apply elem_of_cons; by left).
  apply list_elem_of_filter in Hin as [Hne _]. done.
Qed.

Lemma deleteConversation_eq (cid : string) (st : ChatState) :
  Chat.deleteConversation cid st
  = {| Chat.conversations :=
         filter (fun conv => Chat.conv_id conv <> cid) (Chat.conversations st);
       Chat.currentConversationId :=
         if decide (Chat.currentConversationId st = Some cid)
         then first_id (filter (fun conv => Chat.conv_id conv <> cid)
                               (Chat.conversations st))
         else Chat.currentConversationId st;
       Chat.isLoading := Chat.isLoading st;
       Chat.chat_error := Chat.chat_error st |}.
Proof. reflexivity. Qed.

(** X1: [createConversation] returns the id it made, makes it current,
    and puts the new, empty conversation at the head of the list, where
    [getCurrentConversation] finds it; the title is the one given, or
    the default.  Lookups of any other id are as before. *)
Theorem createConversation_selects_new (title_arg : option string)
    (now_id now_created now_updated : Z) (rnd : string) (st : ChatState) :
  let r := Chat.createConversation title_arg now_id now_created now_updated rnd st in
  let cid := "conv_" +:+ pretty now_id +:+ "_" +:+ rnd in
  let made : Conversation :=
    {| Chat.conv_id := cid;
       Chat.title := default "New Conversation" title_arg;
       Chat.messages := [];
       Chat.createdAt := now_created;
       Chat.updatedAt := now_updated |} in
  snd r = Chat.ReturnedString cid
  /\ Chat.conversations (fst r) = made :: Chat.conversations st
  /\ Chat.getCurrentConversation (fst r) = Some made
  /\ Chat.getConversation cid (fst r) = Some made
  /\ (forall other, other <> cid ->
        Chat.getConversation other (fst r) = Chat.getConversation other st).
Proof.
  intros r cid made. split; [done|]. split; [done|].
  assert (Hfind : Chat.getConversation cid (fst r) = Some made).
  { unfold Chat.getConversation. simpl.
    by rewrite bool_decide_eq_true_2. }
  split; [exact Hfind|]. split; [exact Hfind|].
  intros other Hne. unfold Chat.getConversation. simpl.
  rewrite bool_decide_eq_false_2; [done|]. intros Heq. apply Hne. by rewrite <- Heq.
Qed.

(** X2: after [deleteConversation(id)] no conversation has that id, and
    lookups of every other id are as before; deleting again changes
    nothing; the current id is kept unless it was the deleted one, in
    which case it becomes the id of the first remaining conversation, or
    none. *)
Theorem deleteConversation_removes (cid : string) (st : ChatState) :
  let st' := Chat.deleteConversation cid st in
  Chat.getConversation cid st' = None
  /\ (forall other, other <> cid ->
        Chat.getConversation other st' = Chat.getConversation other st)
  /\ Chat.deleteConversation cid st' = st'
  /\ Chat.currentConversationId st' <> Some cid
  /\ (Chat.currentConversationId st <> Some cid ->
      Chat.currentConversationId st' = Chat.currentConversationId st)
  /\ (Chat.currentConversationId st = Some cid ->
      Chat.currentConversationId st' = first_id (Chat.conversations st')).
Proof.
  intros st'. unfold st'. rewrite deleteConversation_eq.
  assert (Hcur : (if decide (Chat.currentConversationId st = Some cid)
                  then first_id (filter (fun conv => Chat.conv_id conv <> cid)
                                        (Chat.conversations st))
                  else Chat.currentConversationId st) <> Some cid).
  { destruct (decide _); [apply first_id_kept|done]. }
  split; [apply find_kept_removed|].
  split; [intros other Hne; by apply find_kept_other|].
  split.
  { rewrite deleteConversation_eq. cbn [Chat.conversations Chat.currentConversationId
      Chat.isLoading Chat.chat_error].
    rewrite (filter_absent cid) by apply find_kept_removed.
    revert Hcur.
    generalize (if decide (Chat.currentConversationId st = Some cid)
                then first_id (filter (fun conv => Chat.conv_id conv <> cid)
                                      (Chat.conversations st))
                else Chat.currentConversationId st).
    intros c1 Hc1. by destruct (decide (c1 = Some cid)). }
  split; [exact Hcur|].
  cbn [Chat.currentConversationId Chat.conversations].
  split; intros Hc; by destruct (decide _).
Qed.

(** X3: deleting an id that names no conversation and is not the current
    one changes nothing.  Creating a conversation and then deleting the
    id returned gives back the list of conversations, if that id was
    fresh, and selects the first of them. *)
Theorem deleteConversation_absent_and_undo (cid : string) (st : ChatState) :
  Chat.getConversation cid st = None ->
  (Chat.currentConversationId st <> Some cid ->
   Chat.deleteConversation cid st = st)
  /\ (forall title_arg now_id now_created now_updated rnd,
        cid = Chat.fresh_id "conv_" now_id rnd ->
        Chat.deleteConversation cid
          (fst (Chat.createConversation title_arg now_id now_created now_updated rnd st))
        = Chat.setCurrentConversation (first_id (Chat.conversations st)) st).
Proof.
  intros Habs. split.
  - intros Hcur. rewrite deleteConversation_eq.
    rewrite (filter_absent cid) by exact Habs.
    destruct (decide _); [done|]. by destruct st.
  - intros title_arg now_id now_created now_updated rnd ->.
    rewrite deleteConversation_eq. simpl.
    rewrite filter_cons_False by (intros Hne; by apply Hne).
    rewrite (filter_absent _ _ Habs).
    by destruct (decide _).
Qed.

Lemma addMessage_length (cid : string) (m : NewMessage)
    (now_id now_ts now_updated : Z) (rnd : string) (st : ChatState) :
  length (Chat.conversations (fst (Chat.addMessage cid m now_id now_ts now_updated rnd st)))
  = length (Chat.conversations st).
Proof. simpl. apply length_map. Qed.

(** X4: through any series of [addMessage] calls the conversations keep
    their number, places and ids, and the messages of a conversation
    become its old messages followed by the messages built by the calls
    that name its id, in the order of the calls. *)
Theorem addMessages_append_only (calls : list AddCall) (st : ChatState)
    (i : nat) (conv : Conversation) :
  Chat.conversations st !! i = Some conv ->
  length (Chat.conversations (addMessages calls st)) = length (Chat.conversations st)
  /\ exists conv',
       Chat.conversations (addMessages calls st) !! i = Some conv'
       /\ Chat.conv_id conv' = Chat.conv_id conv
       /\ Chat.createdAt conv' = Chat.createdAt conv
       /\ Chat.messages conv'
          = Chat.messages conv
            ++ map message_of
                 (filter (fun c => call_conversation c = Chat.conv_id conv) calls).
Proof.
  revert st conv. induction calls as [|c calls IH]; intros st conv Hi.
  - split; [done|]. exists conv. by rewrite app_nil_r.
  - simpl.
    pose proof (addMessage_conversations (call_conversation c) (call_message c)
                  (call_now_id c) (call_now_ts c) (call_now_updated c)
                  (call_rnd c) st i) as Hstep.
    rewrite Hi in Hstep. simpl in Hstep.
    destruct (IH (do_add c st) _ Hstep) as (Hlen & conv' & H1 & H2 & H3 & H4).
    split; [rewrite Hlen; apply addMessage_length|].
    exists conv'. split; [exact H1|].
    rewrite filter_cons.
    destruct (decide (Chat.conv_id conv = call_conversation c)) as [Hc|Hc].
    + simpl in H2, H3, H4.
      rewrite decide_True by done.
      split; [done|]. split; [done|].
      rewrite H4. simpl. by rewrite <- app_assoc.
    + rewrite decide_False by done. done.
Qed.

(** X5: [addMessage] with an id that names no conversation changes
    nothing in the store. *)
Theorem addMessage_unknown_conversation (cid : string) (m : NewMessage)
    (now_id now_ts now_updated : Z) (rnd : string) (st : ChatState) :
  Chat.getConversation cid st = None ->
  fst (Chat.addMessage cid m now_id now_ts now_updated rnd st) = st.
Proof.
  intros Habs. simpl. rewrite map_unnamed by exact Habs.
  apply set_conversations_same.
Qed.

Lemma set_conversations_twice (cs cs' : list Conversation) (st : ChatState) :
  Chat.set_conversations cs (Chat.set_conversations cs' st)
  = Chat.set_conversations cs st.
Proof. reflexivity. Qed.

Lemma merge_message_over (msg : Message) (u1 u2 : MessageUpdate) :
  Chat.merge_message (Chat.merge_message msg u1) u2
  = Chat.merge_message msg (over u2 u1).
Proof.
  destruct u1 as [[?|] [?|] [?|] [?|] [?|] [?|] [?|] [?|]];
    destruct u2 as [[?|] [?|] [?|] [?|] [?|] [?|] [?|] [?|]]; reflexivity.
Qed.

(** X6: two [updateMessage] calls on the same message amount to one call
    with the second update laid over the first (and the later clock),
    provided the first does not give the message another id. *)
Theorem updateMessage_twice (cid mid : string) (u1 u2 : MessageUpdate)
    (t1 t2 : Z) (st : ChatState) :
  default mid (Chat.upd_id u1) = mid ->
  Chat.updateMessage cid mid u2 t2 (Chat.updateMessage cid mid u1 t1 st)
  = Chat.updateMessage cid mid (over u2 u1) t2 st.
Proof.
  intros Hid. unfold Chat.updateMessage.
  rewrite set_conversations_twice. f_equal.
  cbn [Chat.conversations Chat.set_conversations].
  rewrite map_map. apply map_ext. intros conv.
  destruct (decide (Chat.conv_id conv = cid)) as [Hc|Hc].
  - cbn [Chat.update_in Chat.conv_id]. rewrite decide_True by done.
    unfold Chat.update_in. cbn [Chat.conv_id Chat.title Chat.messages Chat.createdAt].
    f_equal. rewrite map_map. apply map_ext. intros msg.
    destruct (decide (Chat.id msg = mid)) as [Hm|Hm].
    + rewrite decide_True.
      * apply merge_message_over.
      * simpl. rewrite Hm. exact Hid.
    + by rewrite decide_False.
  - by rewrite decide_False.
Qed.


Lemma message_known_setters (cid mid : string) (b : bool) (e : option string)
    (st : ChatState) :
  message_known cid mid (Chat.setError e (Chat.setLoading b st))
  = message_known cid mid st.
Proof. reflexivity. Qed.

Lemma message_known_create (cid mid : string) (title_arg : option string)
    (now_id now_created now_updated : Z) (rnd : string) (st : ChatState) :
  message_known cid mid
    (fst (Chat.createConversation title_arg now_id now_created now_updated rnd st))
  = message_known cid mid st.
Proof.
  unfold message_known. simpl. by rewrite andb_false_r.
Qed.

Lemma message_known_addMessage (cid mid cid' : string) (m : NewMessage)
    (now_id now_ts now_updated : Z) (rnd : string) (st : ChatState) :
  message_known cid mid st = false ->
  Chat.fresh_id "msg_" now_id rnd <> mid ->
  message_known cid mid
    (fst (Chat.addMessage cid' m now_id now_ts now_updated rnd st)) = false.
Proof.
  intros Hk Hne.
  unfold message_known in *. simpl.
  induction (Chat.conversations st) as [|c l IH]; [done|].
  simpl in Hk. apply orb_false_iff in Hk as [Hc Hl].
  simpl. rewrite (IH Hl), orb_false_r.
  destruct (decide (Chat.conv_id c = cid')) as [Hc'|Hc']; [|exact Hc].
  simpl. destruct (bool_decide (Chat.conv_id c = cid)); [|done].
  simpl in *. rewrite existsb_app, Hc. simpl.
  rewrite orb_false_r. by apply bool_decide_eq_false_2.
Qed.

(** X8: the id that [handleSendMessage] computes for the assistant
    placeholder is drawn apart from the id [addMessage] gives the
    placeholder it stores.  Unless the two draws (clock and random text)
    coincide, an [updateMessage] under the computed id finds no message:
    it leaves every message of the store as it is and only moves
    [updatedAt] of the conversation. *)
Theorem handleSendMessage_update_misses (message : string)
    (creating for_user for_placeholder : Chat.Readings)
    (now_assistant : Z) (rnd_assistant : string)
    (updates : MessageUpdate) (now_updated : Z) (st : ChatState) :
  let s := Chat.handleSendMessage_begin message creating for_user for_placeholder
             now_assistant rnd_assistant st in
  (now_assistant, rnd_assistant)
    <> (Chat.r_now_id for_placeholder, Chat.r_rnd for_placeholder) ->
  (now_assistant, rnd_assistant)
    <> (Chat.r_now_id for_user, Chat.r_rnd for_user) ->
  message_known (Chat.conversationId s) (Chat.assistantMessageId s) st = false ->
  message_known (Chat.conversationId s) (Chat.assistantMessageId s)
    (Chat.sent_store s) = false
  /\ Chat.updateMessage (Chat.conversationId s) (Chat.assistantMessageId s)
       updates now_updated (Chat.sent_store s)
     = touch (Chat.conversationId s) now_updated (Chat.sent_store s).
Proof.
  intros s Hp Hu Hk.
  assert (Hknown : message_known (Chat.conversationId s) (Chat.assistantMessageId s)
                     (Chat.sent_store s) = false).
  { unfold s, Chat.handleSendMessage_begin in *.
    destruct (Chat.currentConversationId st) as [c|];
      [destruct (decide (c = EmptyString))|];
      cbn [Chat.sent_store Chat.conversationId Chat.assistantMessageId] in *;
      rewrite message_known_setters;
      (apply message_known_addMessage;
       [apply message_known_addMessage;
        [rewrite ?message_known_create; exact Hk|]|]);
      intros Heq%fresh_id_inj; destruct Heq as [<- <-]; done. }
  split; [exact Hknown|].
  revert Hknown.
  generalize (Chat.sent_store s), (Chat.conversationId s), (Chat.assistantMessageId s).
  intros st0 cid mid Hknown.
  unfold Chat.updateMessage, touch. f_equal.
  unfold message_known in Hknown.
  induction (Chat.conversations st0) as [|c l IH]; simpl; [done|].
  simpl in Hknown. apply orb_false_iff in Hknown as [Hc Hl].
  rewrite IH by exact Hl. f_equal.
  destruct (decide (Chat.conv_id c = cid)) as [Heq|]; [|done].
  rewrite bool_decide_eq_true_2 in Hc by exact Heq. simpl in Hc.
  unfold Chat.update_in. by rewrite map_messages_unknown.
Qed.

End ChatMore.

Definition one_message : Chat.ChatState unit unit :=
  fst (Chat.addMessage "c" (user_says "Hello") 1 2 3 "r" one_conversation).

Definition sample_readings (n : Z) (r : string) : Chat.Readings :=
  {| Chat.r_now_id := n; Chat.r_now_second := n; Chat.r_now_updated := n;
     Chat.r_rnd := r |}.

Lemma deleteConversation_absent_and_undo_witness :
  Chat.deleteConversation "zz" one_conversation = one_conversation.
Proof.
  apply (deleteConversation_absent_and_undo "zz" one_conversation eq_refl).
  discriminate.
Defined.

Lemma addMessages_append_only_witness :
  exists conv',
    Chat.conversations
      (addMessages [mkAddCall "c" (user_says "a") 4 5 6 "s";
                    mkAddCall "t" (user_says "b") 7 8 9 "u";
                    mkAddCall "c" (user_says "c") 7 8 9 "v"] two_conversations)
      !! 0%nat = Some conv'
    /\ length (Chat.messages conv') = 2%nat.
Proof.
  destruct (addMessages_append_only
              [mkAddCall "c" (user_says "a") 4 5 6 "s";
               mkAddCall "t" (user_says "b") 7 8 9 "u";
               mkAddCall "c" (user_says "c") 7 8 9 "v"]
              two_conversations 0%nat fresh_conversation eq_refl)
    as (_ & conv' & H1 & _ & _ & H4).
  exists conv'. split; [exact H1|]. rewrite H4. reflexivity.
Defined.

Lemma addMessage_unknown_conversation_witness :
  fst (Chat.addMessage "zz" (user_says "Hello") 1 2 3 "r" one_conversation)
  = one_conversation.
Proof.
  apply (addMessage_unknown_conversation "zz" (user_says "Hello") 1 2 3 "r"
           one_conversation).
  reflexivity.
Defined.

Lemma updateMessage_twice_witness :
  Chat.updateMessage "c" "msg_1_r" no_update 9
    (Chat.updateMessage "c" "msg_1_r" no_update 8 one_message)
  = Chat.updateMessage "c" "msg_1_r" (over no_update no_update) 9 one_message.
Proof.
  apply (updateMessage_twice "c" "msg_1_r" no_update no_update 8 9 one_message).
  reflexivity.
Defined.


Lemma handleSendMessage_update_misses_witness :
  let s := Chat.handleSendMessage_begin "Hi" (sample_readings 1 "a")
             (sample_readings 2 "b") (sample_readings 2 "d") 2 "c"
             (Chat.initial (Citation:=unit) (RetrievalDebug:=unit)) in
  Chat.updateMessage (Chat.conversationId s) (Chat.assistantMessageId s)
    no_update 5 (Chat.sent_store s)
  = touch (Chat.conversationId s) 5 (Chat.sent_store s).
Proof.
  apply (handleSendMessage_update_misses "Hi" (sample_readings 1 "a")
           (sample_readings 2 "b") (sample_readings 2 "d") 2 "c" no_update 5
           Chat.initial).
  - intros [=].
  - intros [=].
  - reflexivity.
Defined.

(** * Further facts about the ingestion queue *)

Section IngestMore.

Import Ingest.

(** Code that keeps a property of items. *)
Definition keeps (P : IngestItem -> Prop) (p : Prog) : Prop :=
  forall st : IngestState,
    Forall P (items st) -> Forall P (items (final (run p st))).

(** A property that every fresh item has and every status change
    establishes. *)
Record established (P : IngestItem -> Prop) : Prop := mkEstablished {
  est_file : forall f s, P (new_file_item f s);
  est_url : forall u s, P (new_url_item u s);
  est_uploading : forall x, P (mark_uploading x);
  est_success : forall r x, P (mark_success r x);
  est_error : forall m x, P (mark_error m x);
  est_pending : forall x, P (mark_pending x);
}.

Lemma items_ended (tag : option nat) (sys : System) :
  items (store (ended tag sys)) = items (store sys).
Proof.
  destruct tag as [b|]; [|done]. unfold ended. cbn [store].
  by destruct (decide _).
Qed.

Lemma items_exec (p : Prog) (tag : option nat) (sys : System) :
  items (store (exec p tag sys)) = items (final (run p (store sys))).
Proof.
  unfold exec. destruct (parked (run p (store sys))); [done|].
  by rewrite items_ended.
Qed.

Lemma keeps_update (P : IngestItem -> Prop) (i : string)
    (f : IngestItem -> IngestItem) :
  (forall x, P (f x)) -> keeps P (SetState (update_items i f) Return).
Proof.
  intros Hf st HP. simpl. apply Forall_update_items; [done|]. intros x _ _. apply Hf.
Qed.

Lemma keeps_after_ingestUrl (P : IngestItem -> Prop) (i : string)
    (r : Settled IngestResponse) :
  established P -> keeps P (after_ingestUrl i r).
Proof.
  intros HP. destruct r as [res|e]; apply keeps_update; intros x;
    [apply (est_success P HP)|apply (est_error P HP)].
Qed.

Lemma keeps_uploadItem (P : IngestItem -> Prop) (i : string) :
  established P -> keeps P (uploadItem i).
Proof.
  intros HP st Hst.
  destruct (find_item i (items st)) as [item|] eqn:Hf.
  - destruct (decide (status item = pending)) as [Hs|Hs].
    + rewrite (run_uploadItem_pending i st item Hf Hs). cbn [final].
      apply Forall_update_items; [done|]. intros x _ _.
      apply (est_uploading P HP).
    + rewrite run_uploadItem_noop; [done|].
      intros item' Hf'. rewrite Hf in Hf'. by injection Hf' as <-.
  - rewrite run_uploadItem_noop; [done|].
    intros item' Hf'. by rewrite Hf in Hf'.
Qed.

Lemma keeps_retryItem (P : IngestItem -> Prop) (i : string) :
  established P -> keeps P (retryItem i).
Proof.
  intros HP st Hst.
  destruct (find_item i (items st)) as [item|] eqn:Hf.
  - destruct (decide (status item = error)) as [Hs|Hs].
    + rewrite (run_retryItem_error i st item Hf Hs). cbn [final].
      apply keeps_uploadItem; [done|].
      apply Forall_update_items; [done|]. intros x _ _.
      apply (est_pending P HP).
    + rewrite run_retryItem_noop; [done|].
      intros item' Hf'. rewrite Hf in Hf'. by injection Hf' as <-.
  - rewrite run_retryItem_noop; [done|].
    intros item' Hf'. by rewrite Hf in Hf'.
Qed.

Lemma keeps_uploads (P : IngestItem -> Prop) (b : nat) (l : list IngestItem)
    (sys : System) :
  established P ->
  Forall P (items (store sys)) ->
  Forall P (items (store
    (fold_left (fun s item => exec (uploadItem (id item)) (Some b) s) l sys))).
Proof.
  intros HP. revert sys. induction l as [|x l IH]; intros sys Hs; [done|].
  simpl. apply IH. rewrite items_exec. by apply keeps_uploadItem.
Qed.

(** Every reachable store has a property that is established in this
    way. *)
Lemma established_reachable (P : IngestItem -> Prop) (sys : System) :
  established P -> reachable sys -> Forall P (items (store sys)).
Proof.
  intros HP. induction 1 as [|sys sys' Hreach IH Hstep]; [constructor|].
  pose proof (Inv_reachable sys Hreach) as [_ _ Ht].
  destruct Hstep as [files stamps sys|urls stamps sys|i sys|sys|sys|i sys|i sys
                    |n ms k tag sys Hn|n u k tag r sys Hn].
  - simpl. apply Forall_app. split; [done|].
    apply Forall_map_stamped. apply (est_file P HP).
  - simpl. apply Forall_app. split; [done|].
    apply Forall_map_stamped. apply (est_url P HP).
  - simpl. by apply Forall_kept.
  - constructor.
  - unfold uploadAll. destruct (decide _); [done|].
    by apply keeps_uploads.
  - rewrite items_exec. by apply keeps_uploadItem.
  - rewrite items_exec. by apply keeps_retryItem.
  - pose proof (proj1 (Forall_forall _ _) Ht _ (list_elem_of_lookup_2 _ _ _ Hn))
      as (i & r & ->).
    rewrite items_exec. apply keeps_update; [|done].
    apply (est_success P HP).
  - pose proof (proj1 (Forall_forall _ _) Ht _ (list_elem_of_lookup_2 _ _ _ Hn))
      as (i & Hi & ->).
    rewrite items_exec. by apply keeps_after_ingestUrl.
Qed.

(** What the fields of an item say together. *)
Definition consistent (item : IngestItem) : Prop :=
  (status item = success -> progress item = 100 /\ result item <> None)
  /\ (status item <> success -> progress item = 0)
  /\ (status item = error -> item_error item <> None).

Lemma consistent_established : established consistent.
Proof.
  split; intros; unfold consistent; simpl; repeat split; try done.
Qed.

(** X9: in every store the queue can reach, whatever was added, removed,
    uploaded, retried, and however the uploads ended, an item has progress
    100 and a result if its status is [success] and progress 0 otherwise,
    and an item in [error] has an error message. *)
Theorem reachable_items_consistent (sys : System) (item : IngestItem) :
  reachable sys ->
  item ∈ items (store sys) ->
  (status item = success -> progress item = 100 /\ result item <> None)
  /\ (status item <> success -> progress item = 0)
  /\ (status item = error -> item_error item <> None).
Proof.
  intros Hreach Hin.
  pose proof (established_reachable consistent sys consistent_established Hreach)
    as Hall.
  exact (proj1 (Forall_forall consistent _) Hall item Hin).
Qed.

Lemma totalProgress_successes (l : list IngestItem) :
  Forall consistent l ->
  totalProgress l
  = 100 * Z.of_nat (length (filter (fun item => status item = success) l)).
Proof.
  induction 1 as [|x l (Hs & Hn & _) _ IH]; [done|].
  rewrite totalProgress_cons, IH, filter_cons.
  destruct (decide (status x = success)) as [Hx|Hx].
  - destruct (Hs Hx) as [-> _]. simpl length. lia.
  - rewrite (Hn Hx). lia.
Qed.

(** X10: on a reachable, non-empty queue [getTotalProgress] is the share
    of successful items in percent, rounded to the nearest integer; it
    lies between 0 and 100, and it is 100 exactly when at least 99.5
    percent of the items succeeded. *)
Theorem getTotalProgress_success_share (sys : System) :
  reachable sys ->
  items (store sys) <> [] ->
  let n := Z.of_nat (length (items (store sys))) in
  let s := Z.of_nat (length (getSuccessfulItems (store sys))) in
  getTotalProgress (store sys) = (200 * s + n) / (2 * n)
  /\ 0 <= getTotalProgress (store sys) <= 100
  /\ (getTotalProgress (store sys) = 100 <-> 200 * s >= 199 * n).
Proof.
  intros Hreach Hne n s.
  pose proof (established_reachable consistent sys consistent_established Hreach)
    as Hall.
  assert (Hn : 0 < n) by (unfold n; destruct (items (store sys)); [done|simpl; lia]).
  assert (Hs : 0 <= s <= n).
  { unfold s, n, getSuccessfulItems. split; [lia|].
    apply inj_le, length_filter. }
  assert (Heq : getTotalProgress (store sys) = (200 * s + n) / (2 * n)).
  { rewrite getTotalProgress_quotient by done.
    rewrite (totalProgress_successes _ Hall). fold n.
    unfold s, getSuccessfulItems. f_equal. lia. }
  split; [exact Heq|]. rewrite Heq.
  pose proof (Z.div_mod (200 * s + n) (2 * n)).
  pose proof (Z.mod_pos_bound (200 * s + n) (2 * n)).
  split; [nia|]. split; intros; nia.
Qed.

Lemma update_items_lookup (i : string) (f : IngestItem -> IngestItem)
    (st : IngestState) (k : nat) :
  items (update_items i f st) !! k
  = (fun x => if decide (id x = i) then f x else x) <$> items st !! k.
Proof. unfold update_items. simpl. apply lookup_map. Qed.

Lemma update_items_absent (i : string) (f : IngestItem -> IngestItem)
    (st : IngestState) :
  find_item i (items st) = None -> update_items i f st = st.
Proof.
  intros Hf. unfold update_items, set_items. destruct st as [l u]. simpl in *.
  f_equal. unfold find_item in Hf.
  induction l as [|x l IH]; simpl in *; [done|].
  case_bool_decide as Hx; [done|].
  rewrite decide_False by done. by rewrite IH.
Qed.

Lemma find_item_removed (i : string) (st : IngestState) :
  find_item i (items (removeItem i st)) = None.
Proof.
  unfold removeItem, find_item. simpl.
  induction (items st) as [|x l IH]; [done|].
  rewrite filter_cons. destruct (decide (id x <> i)) as [Hx|Hx]; [|done].
  simpl. by rewrite bool_decide_eq_false_2.
Qed.

(** X11: when an upload ends, with a result or with a failure, the code
    after the [await] publishes one store, in which the items of other
    ids are in their places, untouched; if the item was removed in the
    meantime, that store is the one it found: the outcome is dropped. *)
Theorem upload_outcome_is_local (i : string) (r : Settled IngestResponse)
    (res : IngestResponse) (st : IngestState) :
  (forall c, c = after_ingestUrl i r \/ c = upload_done i res ->
     (exists st', run c st = {| published := [st']; final := st'; parked := None |}
        /\ length (items st') = length (items st)
        /\ isUploading st' = isUploading st
        /\ forall k x, items st !! k = Some x -> id x <> i ->
             items st' !! k = Some x)
     /\ run c (removeItem i st)
        = {| published := [removeItem i st]; final := removeItem i st;
             parked := None |}).
Proof.
  intros c Hc.
  assert (exists f, c = SetState (update_items i f) Return) as [f ->].
  { destruct Hc as [->| ->]; [destruct r|]; eexists; reflexivity. }
  split.
  - exists (update_items i f st). split; [reflexivity|].
    split; [unfold update_items; simpl; apply length_map|].
    split; [done|].
    intros k x Hk Hne. rewrite update_items_lookup, Hk. simpl.
    by rewrite decide_False.
  - simpl. by rewrite update_items_absent by apply find_item_removed.
Qed.

Lemma map_stamped_length {A : Type} (mk : A -> Stamp -> IngestItem)
    (l : list A) (stamps : list Stamp) :
  length stamps = length l ->
  length (map_stamped mk l stamps) = length l.
Proof.
  revert stamps. induction l as [|a l IH]; intros [|s stamps]; simpl; try done.
  intros [= Hl]. by rewrite IH.
Qed.

Lemma map_stamped_all {A : Type} (mk : A -> Stamp -> IngestItem) (g : A -> string)
    (l : list A) (stamps : list Stamp) :
  length stamps = length l ->
  (forall a s, name (mk a s) = g a) ->
  map name (map_stamped mk l stamps) = map g l.
Proof.
  intros Hl Hg. revert stamps Hl.
  induction l as [|a l IH]; intros [|s stamps]; simpl; try done.
  intros [= Hl]. by rewrite Hg, IH.
Qed.

(** X12: [addFiles] and [addUrls] keep the queue as it is and put after
    it one item per file or URL, in the order given, named after it, of
    its kind, [pending] with progress 0 and neither result nor error;
    nothing is merged with an item already there. *)
Theorem add_appends_pending (st : IngestState) (stamps : list Stamp) :
  (forall files : list File,
     length stamps = length files ->
     exists added,
       items (addFiles files stamps st) = items st ++ added
       /\ isUploading (addFiles files stamps st) = isUploading st
       /\ map name added = map file_name files
       /\ Forall (fun x => type x = file /\ status x = pending /\ progress x = 0
                           /\ result x = None /\ item_error x = None) added)
  /\ (forall urls : list string,
        length stamps = length urls ->
        exists added,
          items (addUrls urls stamps st) = items st ++ added
          /\ isUploading (addUrls urls stamps st) = isUploading st
          /\ map name added = urls
          /\ Forall (fun x => type x = url /\ status x = pending /\ progress x = 0
                              /\ result x = None /\ item_error x = None) added).
Proof.
  split.
  - intros files Hl. eexists. split; [reflexivity|]. split; [done|].
    split; [by apply map_stamped_all|]. by apply Forall_map_stamped.
  - intros urls Hl. eexists. split; [reflexivity|]. split; [done|].
    split; [|by apply Forall_map_stamped].
    rewrite (map_stamped_all new_url_item (fun u => u)) by done.
    apply map_id.
Qed.

(** X13: [uploadItem] on a pending item of kind [url] publishes the
    [uploading] store and parks at the backend call for the item's name.
    When that call is fulfilled, every item of the id becomes [success]
    with progress 100 and the backend's result; when it is rejected, every
    item of the id becomes [error] with progress 0 and the message of the
    error, or [Unknown error] for a rejection that is no [Error].  Either
    way one store is published and the call ends. *)
Theorem url_upload_outcomes (st : IngestState) (i : string) (item : IngestItem) :
  find_item i (items st) = Some item ->
  status item = pending ->
  type item = url ->
  exists k,
    run (uploadItem i) st
    = {| published := [update_items i mark_uploading st];
         final := update_items i mark_uploading st;
         parked := Some (WaitIngestUrl (name item) k) |}
    /\ forall (st' : IngestState) (r : Settled IngestResponse),
         exists st'',
           run (k r) st' = {| published := [st'']; final := st''; parked := None |}
           /\ forall x, x ∈ items st'' -> id x = i ->
                match r with
                | Fulfilled res =>
                    status x = success /\ progress x = 100 /\ result x = Some res
                | Rejected e =>
                    status x = error /\ progress x = 0
                    /\ item_error x
                       = Some (match e with
                               | JsError m => m
                               | NonError => "Unknown error"
                               end)
                end.
Proof.
  intros Hf Hs Hurl. exists (after_ingestUrl i). split.
  - rewrite (run_uploadItem_pending i st item Hf Hs). by rewrite Hurl.
  - intros st' r. destruct r as [res|e]; (eexists; split; [reflexivity|]);
      intros x Hx Hid;
      apply elem_of_update_items in Hx as (x0 & _ & ->);
      destruct (decide (id x0 = i)); done.
Qed.

(** X15: a retry whose upload then succeeds leaves no trace of the
    failure: retrying an item in [error] and fulfilling its upload, with
    nothing in between, ends with every item of the id in [success],
    progress 100, the new result and no error message. *)
Theorem retry_success_clears_error (st : IngestState) (i : string)
    (item : IngestItem) (res : IngestResponse) :
  find_item i (items st) = Some item ->
  status item = error ->
  type item = url ->
  exists k,
    parked (run (retryItem i) st) = Some (WaitIngestUrl (name item) k)
    /\ forall x,
         x ∈ items (final (run (k (Fulfilled res)) (final (run (retryItem i) st)))) ->
         id x = i ->
         status x = success /\ progress x = 100 /\ result x = Some res
         /\ item_error x = None.
Proof.
  intros Hf Hs Hurl.
  assert (Hfound : find_item i (items (update_items i mark_pending st))
                   = Some (mark_pending item)).
  { unfold update_items. simpl. rewrite find_item_update by done. by rewrite Hf. }
  rewrite (run_retryItem_error i st item Hf Hs).
  rewrite (run_uploadItem_pending i _ (mark_pending item) Hfound eq_refl).
  cbn [parked final mark_pending type name]. rewrite Hurl.
  exists (after_ingestUrl i). split; [done|].
  intros x Hx Hid.
  change (x ∈ items (update_items i (mark_success res)
                       (update_items i mark_uploading
                          (update_items i mark_pending st)))) in Hx.
  apply elem_of_update_items in Hx as (x1 & Hx1 & ->).
  apply elem_of_update_items in Hx1 as (x2 & Hx2 & ->).
  apply elem_of_update_items in Hx2 as (x3 & _ & ->).
  repeat (case_decide; cbn [id mark_success mark_uploading mark_pending] in * );
    done.
Qed.

(** The call [uploadItem] parks for a pending item, as started by the
    [uploadAll] numbered [b]. *)
Definition task_of (b : nat) (x : IngestItem) : Task :=
  {| waiting := match type x with
                | file => WaitTimeout 1000 (upload_done (id x) (simulated_result x))
                | url => WaitIngestUrl (name x) (after_ingestUrl (id x))
                end;
     batch := Some b |}.

Definition start_pending (x : IngestItem) : IngestItem :=
  if decide (status x = pending) then mark_uploading x else x.

Lemma elem_of_map_id (x : IngestItem) (l : list IngestItem) :
  x ∈ l -> id x ∈ map id l.
Proof.
  induction l as [|a l IH]; intros Hx; [by apply elem_of_nil in Hx|].
  apply elem_of_cons in Hx as [->|Hx]; simpl; apply elem_of_cons; auto.
Qed.

Lemma elem_of_map_id_inv (i : string) (l : list IngestItem) :
  i ∈ map id l -> exists x, x ∈ l /\ id x = i.
Proof.
  induction l as [|a l IH]; simpl; intros Hi; [by apply elem_of_nil in Hi|].
  apply elem_of_cons in Hi as [->|Hi].
  - exists a. split; [apply elem_of_cons; by left|done].
  - destruct (IH Hi) as (x & ? & ?). exists x.
    split; [apply elem_of_cons; by right|done].
Qed.

Lemma same_id_same_item (l : list IngestItem) (x y : IngestItem) :
  NoDup (map id l) -> x ∈ l -> y ∈ l -> id x = id y -> x = y.
Proof.
  induction l as [|a l IH]; simpl; intros Hnd Hx Hy Hid;
    [by apply elem_of_nil in Hx|].
  apply NoDup_cons in Hnd as [Ha Hnd].
  apply elem_of_cons in Hx as [->|Hx]; apply elem_of_cons in Hy as [->|Hy].
  - done.
  - destruct Ha. rewrite Hid. by apply elem_of_map_id.
  - destruct Ha. rewrite <- Hid. by apply elem_of_map_id.
  - by apply IH.
Qed.

Lemma find_item_unique (l : list IngestItem) (x : IngestItem) :
  NoDup (map id l) -> x ∈ l -> find_item (id x) l = Some x.
Proof.
  intros Hnd Hx.
  destruct (find_item (id x) l) as [y|] eqn:Hf.
  - destruct (find_item_Some _ _ _ Hf) as [Hid Hy].
    f_equal. by apply (same_id_same_item l).
  - exfalso. unfold find_item in Hf.
    induction l as [|a l IH]; [by apply elem_of_nil in Hx|].
    simpl in Hf. case_bool_decide as Ha; [done|].
    apply elem_of_cons in Hx as [->|Hx]; [done|].
    apply NoDup_cons in Hnd as [_ Hnd]. by apply IH.
Qed.

Lemma map_id_update (i : string) (f : IngestItem -> IngestItem)
    (l : list IngestItem) :
  (forall x, id (f x) = id x) ->
  map id (map (fun x => if decide (id x = i) then f x else x) l) = map id l.
Proof.
  intros Hf. rewrite map_map. apply map_ext. intros x.
  destruct (decide _); [apply Hf|done].
Qed.

(** The uploads that [uploadAll] starts, one after the other. *)
Lemma uploads_started (b : nat) (todo : list IngestItem) (sys : System) :
  NoDup (map id (items (store sys))) ->
  NoDup (map id todo) ->
  (forall x, x ∈ todo -> x ∈ items (store sys) /\ status x = pending) ->
  fold_left (fun s item => exec (uploadItem (id item)) (Some b) s) todo sys
  = {| store :=
         set_items
           (map (fun x => if decide (id x ∈ map id todo)
                          then mark_uploading x else x)
                (items (store sys)))
           (store sys);
       tasks := tasks sys ++ map (task_of b) todo;
       batches := batches sys |}.
Proof.
  revert sys. induction todo as [|x todo IH]; intros sys Hnd Hndt Hall.
  - simpl. destruct sys as [[l u] ts bs]. unfold set_items. simpl.
    rewrite app_nil_r. do 2 f_equal.
    symmetry. apply map_id.
  - destruct (Hall x) as [Hx Hs]; [apply elem_of_cons; by left|].
    simpl in Hndt. apply NoDup_cons in Hndt as [Hxt Hndt].
    cbn [fold_left].
    assert (Hexec : exec (uploadItem (id x)) (Some b) sys
                    = {| store := update_items (id x) mark_uploading (store sys);
                         tasks := tasks sys ++ [task_of b x];
                         batches := batches sys |}).
    { unfold exec.
      rewrite (run_uploadItem_pending (id x) (store sys) x
                 (find_item_unique _ _ Hnd Hx) Hs).
      reflexivity. }
    rewrite Hexec, IH; cbn [store tasks batches].
    + unfold set_items, update_items. cbn [items isUploading set_items].
      f_equal; [f_equal|by rewrite <- app_assoc].
      rewrite map_map. apply map_ext. intros y.
      destruct (decide (id y = id x)) as [Hy|Hy].
      * cbn [id mark_uploading]. rewrite Hy.
        rewrite decide_False by done.
        rewrite decide_True by (apply elem_of_cons; by left). done.
      * destruct (decide (id y ∈ map id todo)) as [Hin|Hin].
        -- rewrite decide_True by (simpl; apply elem_of_cons; by right). done.
        -- rewrite decide_False; [done|].
           simpl. intros [?|?]%elem_of_cons; done.
    + unfold update_items. cbn [items set_items]. by rewrite map_id_update.
    + exact Hndt.
    + intros y Hy. destruct (Hall y) as [Hyl Hys]; [apply elem_of_cons; by right|].
      split; [|done].
      assert (id y <> id x) as Hne.
      { intros Heq. apply Hxt. rewrite <- Heq. by apply elem_of_map_id. }
      unfold update_items. cbn [items set_items].
      apply list_elem_of_In, in_map_iff. exists y.
      split; [by rewrite decide_False|by apply list_elem_of_In].
Qed.

Lemma NoDup_filter_ids (l : list IngestItem) (P : IngestItem -> Prop)
    `{forall x, Decision (P x)} :
  NoDup (map id l) -> NoDup (map id (filter P l)).
Proof.
  induction l as [|a l IH]; simpl; intros Hnd; [constructor|].
  apply NoDup_cons in Hnd as [Ha Hnd].
  rewrite filter_cons. destruct (decide (P a)); [|by apply IH].
  simpl. apply NoDup_cons. split; [|by apply IH].
  intros (y & Hy & Hid)%elem_of_map_id_inv.
  apply list_elem_of_filter in Hy as [_ Hy].
  apply Ha. rewrite <- Hid. by apply elem_of_map_id.
Qed.

Lemma none_pending_after (l : list IngestItem) :
  filter (fun x => status x = pending) (map start_pending l) = [].
Proof.
  induction l as [|a l IH]; [done|]. simpl.
  rewrite filter_cons_False; [done|].
  unfold start_pending. destruct (decide (status a = pending)); done.
Qed.

(** X14: [uploadAll] does nothing when no item is pending, not even
    touch [isUploading].  Otherwise, if no two items share an id, it sets
    [isUploading], turns every pending item to [uploading] with progress
    0 and leaves the others, so that no item is pending afterwards, and
    one upload per formerly pending item is parked, in queue order, all
    counted in a new batch. *)
Theorem uploadAll_starts_every_pending (sys : System) :
  (getPendingItems (store sys) = [] -> uploadAll sys = sys)
  /\ (getPendingItems (store sys) <> [] ->
      NoDup (map id (items (store sys))) ->
      items (store (uploadAll sys)) = map start_pending (items (store sys))
      /\ getPendingItems (store (uploadAll sys)) = []
      /\ isUploading (store (uploadAll sys)) = true
      /\ tasks (uploadAll sys)
         = tasks sys
           ++ map (task_of (length (batches sys))) (getPendingItems (store sys))
      /\ batches (uploadAll sys)
         = batches sys ++ [length (getPendingItems (store sys))]).
Proof.
  unfold uploadAll, getPendingItems. split.
  - intros ->. done.
  - intros Hne Hnd.
    destruct (decide _) as [H0|_].
    { by destruct (filter _ _). }
    rewrite uploads_started; cbn [store tasks batches items set_isUploading].
    + assert (Hitems : map (fun x => if decide
                 (id x ∈ map id (filter (fun item => status item = pending)
                                        (items (store sys))))
                 then mark_uploading x else x) (items (store sys))
               = map start_pending (items (store sys))).
      { apply map_ext_in. intros x Hx%list_elem_of_In. unfold start_pending.
        destruct (decide (status x = pending)) as [Hs|Hs].
        - rewrite decide_True; [done|].
          apply elem_of_map_id. by apply list_elem_of_filter.
        - rewrite decide_False; [done|].
          intros (y & Hy & Hid)%elem_of_map_id_inv.
          apply list_elem_of_filter in Hy as [Hys Hy].
          by rewrite (same_id_same_item _ _ _ Hnd Hx Hy (eq_sym Hid)) in Hs. }
      unfold set_items. cbn [items isUploading]. rewrite Hitems.
      split; [done|]. split; [apply none_pending_after|]. done.
    + exact Hnd.
    + by apply NoDup_filter_ids.
    + intros x [Hs Hx]%list_elem_of_filter. done.
Qed.

End IngestMore.

Definition two_pending : Ingest.System :=
  Ingest.on_store
    (Ingest.addUrls ["https://example.org/a"] [{| Ingest.now := 8; Ingest.rnd := "u" |}])
    (Ingest.on_store (Ingest.addFiles [a_file] [a_stamp]) Ingest.boot).

(** The item of [url_rejected]. *)
Definition rejected_item : Ingest.IngestItem :=
  {| Ingest.id := "url_7_k3"; Ingest.name := "https://example.org/a";
     Ingest.type := Ingest.url; Ingest.size := None;
     Ingest.status := Ingest.error; Ingest.progress := 0;
     Ingest.result := None; Ingest.item_error := Some "Ingest failed: 500" |}.

Lemma rejected_item_queued : rejected_item ∈ Ingest.items (Ingest.store url_rejected).
Proof. change (rejected_item ∈ [rejected_item]). apply list_elem_of_here. Qed.

Lemma reachable_items_consistent_witness :
  Ingest.items (Ingest.store url_rejected) = [rejected_item]
  /\ Ingest.progress rejected_item = 0
  /\ Ingest.item_error rejected_item <> None.
Proof.
  split; [reflexivity|].
  destruct (reachable_items_consistent url_rejected rejected_item
              url_rejected_reachable rejected_item_queued)
    as (_ & Hprogress & Herror).
  split; [apply Hprogress; discriminate|apply Herror; reflexivity].
Defined.

Lemma upload_outcome_is_local_witness :
  Ingest.run (Ingest.after_ingestUrl "url_1_r" (Ingest.Rejected Ingest.NonError))
    (Ingest.removeItem "url_1_r" one_failed)
  = {| Ingest.published := [Ingest.removeItem "url_1_r" one_failed];
       Ingest.final := Ingest.removeItem "url_1_r" one_failed;
       Ingest.parked := None |}.
Proof.
  apply (upload_outcome_is_local "url_1_r" (Ingest.Rejected Ingest.NonError)
           {| Ingest.ingested := []; Ingest.skipped := []; Ingest.errors := [] |}
           one_failed
           (Ingest.after_ingestUrl "url_1_r" (Ingest.Rejected Ingest.NonError))
           (or_introl eq_refl)).
Defined.

Lemma getTotalProgress_success_share_witness :
  Ingest.getTotalProgress (Ingest.store url_rejected) = 0.
Proof.
  destruct (getTotalProgress_success_share url_rejected url_rejected_reachable)
    as [Heq _].
  - discriminate.
  - rewrite Heq. reflexivity.
Defined.

Lemma url_upload_outcomes_witness :
  exists k,
    Ingest.parked (Ingest.run (Ingest.uploadItem "url_7_k3") (Ingest.store url_added))
    = Some (Ingest.WaitIngestUrl "https://example.org/a" k).
Proof.
  destruct (url_upload_outcomes (Ingest.store url_added) "url_7_k3"
              (Ingest.new_url_item "https://example.org/a" a_stamp)
              eq_refl eq_refl eq_refl)
    as (k & Hrun & _).
  exists k. by rewrite Hrun.
Defined.

Lemma retry_success_clears_error_witness :
  exists k,
    Ingest.parked (Ingest.run (Ingest.retryItem "url_1_r") one_failed)
    = Some (Ingest.WaitIngestUrl "https://example.org/a" k).
Proof.
  destruct (retry_success_clears_error one_failed "url_1_r" failed_url
              {| Ingest.ingested := []; Ingest.skipped := []; Ingest.errors := [] |}
              eq_refl eq_refl eq_refl)
    as (k & Hk & _).
  exists k. exact Hk.
Defined.

Lemma uploadAll_starts_every_pending_witness :
  Ingest.getPendingItems (Ingest.store (Ingest.uploadAll two_pending)) = []
  /\ length (Ingest.tasks (Ingest.uploadAll two_pending)) = 2%nat.
Proof.
  destruct (uploadAll_starts_every_pending two_pending) as [_ Hall].
  destruct Hall as (_ & Hnone & _ & Htasks & _).
  - discriminate.
  - apply (bool_decide_unpack _). vm_compute. exact I.
  - split; [exact Hnone|]. rewrite Htasks. reflexivity.
Defined.

(** * Further facts about the stream parser *)

Section StreamLines.

Context {J : Type}.
Variable JSON_parse : string -> option J.

(** The array [lines] of one turn of the read loop, after its [pop], and
    the buffer that turn leaves. *)
Definition chunk_lines (buffer chunk : string) : list string :=
  fst (SSE.pop (SSE.split_lines (buffer +:+ chunk))).

Definition chunk_rest (buffer chunk : string) : string :=
  Api.or_else (default EmptyString (snd (SSE.pop (SSE.split_lines (buffer +:+ chunk)))))
              EmptyString.

(** All the [lines] arrays of the turns over [chunks], one after the
    other, and the buffer left at the end. *)
Fixpoint reads (buffer : string) (chunks : list string) : list string * string :=
  match chunks with
  | [] => ([], buffer)
  | chunk :: rest =>
      let '(ls, b) := reads (chunk_rest buffer chunk) rest in
      (chunk_lines buffer chunk ++ ls, b)
  end.

(** The whole text of a body. *)
Definition whole (chunks : list string) : string :=
  fold_right String.append EmptyString chunks.


(** Reading a text character by character: the lines completed, and the
    line begun, starting from a line begun as [acc]. *)
Fixpoint scan (acc : string) (s : string) : list string * string :=
  match s with
  | EmptyString => ([], acc)
  | String c s' =>
      if decide (c = SSE.newline)
      then let '(ls, r) := scan EmptyString s' in (acc :: ls, r)
      else scan (acc +:+ String c EmptyString) s'
  end.

Definition prepend (acc : string) (pieces : list string) : list string :=
  match pieces with
  | p :: ps => (acc +:+ p) :: ps
  | [] => [acc]
  end.

Lemma read_chunk_lines (cbs : SSE.SSECallbacks) (buffer chunk : string) :
  SSE.read_chunk JSON_parse cbs buffer chunk
  = (chunk_rest buffer chunk,
     flat_map (SSE.process_line JSON_parse cbs (chunk_lines buffer chunk))
              (chunk_lines buffer chunk)).
Proof. reflexivity. Qed.

Lemma or_else_empty (a : string) : Api.or_else a EmptyString = a.
Proof. by destruct a. Qed.

Lemma app_string_assoc (a b c : string) : (a +:+ b) +:+ c = a +:+ (b +:+ c).
Proof.
  induction a as [|x a IH]; [done|].
  change (String x a +:+ b) with (String x (a +:+ b)).
  change (String x (a +:+ b) +:+ c) with (String x ((a +:+ b) +:+ c)).
  change (String x a +:+ (b +:+ c)) with (String x (a +:+ (b +:+ c))).
  by rewrite IH.
Qed.

Lemma split_lines_cons (s : string) : exists p ps, SSE.split_lines s = p :: ps.
Proof.
  induction s as [|c s (p & ps & IH)]; simpl; [by do 2 eexists|].
  destruct (decide _); [by do 2 eexists|].
  rewrite IH. by do 2 eexists.
Qed.

Lemma scan_split (acc s : string) :
  scan acc s
  = (removelast (prepend acc (SSE.split_lines s)),
     default EmptyString (last (prepend acc (SSE.split_lines s)))).
Proof.
  revert acc. induction s as [|c s IH]; intros acc.
  - simpl. by rewrite app_empty_r.
  - simpl. destruct (decide (c = SSE.newline)).
    + rewrite (IH EmptyString).
      destruct (split_lines_cons s) as (p & ps & ->). simpl.
      rewrite app_empty_r. done.
    + rewrite IH.
      destruct (split_lines_cons s) as (p & ps & ->). simpl.
      by rewrite app_string_assoc.
Qed.

Lemma scan_app (acc s t : string) :
  scan acc (s +:+ t)
  = (fst (scan acc s) ++ fst (scan (snd (scan acc s)) t),
     snd (scan (snd (scan acc s)) t)).
Proof.
  revert acc. induction s as [|c s IH]; intros acc.
  - change (EmptyString +:+ t) with t. simpl. by destruct (scan acc t).
  - change (String c s +:+ t) with (String c (s +:+ t)). simpl.
    destruct (decide (c = SSE.newline)).
    + rewrite (IH EmptyString).
      destruct (scan EmptyString s) as [l1 r1]. simpl.
      by destruct (scan r1 t).
    + apply IH.
Qed.

Lemma scan_free (acc s : string) :
  free_of SSE.newline s -> scan acc s = ([], acc +:+ s).
Proof.
  revert acc. induction s as [|c s IH]; intros acc Hs; simpl.
  - by rewrite app_empty_r.
  - destruct Hs as [Hc Hs]. rewrite decide_False by done.
    rewrite IH by done. by rewrite app_string_assoc.
Qed.

Lemma free_of_app (c : Ascii.ascii) (s t : string) :
  free_of c s -> free_of c t -> free_of c (s +:+ t).
Proof.
  induction s as [|x s IH]; [done|]. intros [Hx Hs] Ht.
  change (String x s +:+ t) with (String x (s +:+ t)). split; auto.
Qed.

Lemma scan_rest_free (acc s : string) :
  free_of SSE.newline acc -> free_of SSE.newline (snd (scan acc s)).
Proof.
  revert acc. induction s as [|c s IH]; intros acc Hacc; simpl; [done|].
  destruct (decide (c = SSE.newline)).
  - specialize (IH EmptyString I). by destruct (scan EmptyString s).
  - apply IH. apply free_of_app; [done|]. by split.
Qed.

Lemma prepend_empty (pieces : list string) :
  pieces <> [] -> prepend EmptyString pieces = pieces.
Proof. by destruct pieces. Qed.

(** One turn of the loop is a [scan] of the chunk from the buffer. *)
Lemma chunk_scan (buffer chunk : string) :
  free_of SSE.newline buffer ->
  (chunk_lines buffer chunk, chunk_rest buffer chunk) = scan buffer chunk.
Proof.
  intros Hb. unfold chunk_lines, chunk_rest, SSE.pop. cbn [fst snd].
  rewrite or_else_empty.
  pose proof (scan_split EmptyString (buffer +:+ chunk)) as Hs.
  rewrite prepend_empty in Hs
    by (destruct (split_lines_cons (buffer +:+ chunk)) as (p & ps & ->); done).
  rewrite <- Hs, scan_app, (scan_free EmptyString buffer Hb). simpl.
  change (EmptyString +:+ buffer) with buffer.
  by destruct (scan buffer chunk).
Qed.

Lemma reads_scan (buffer : string) (chunks : list string) :
  free_of SSE.newline buffer ->
  reads buffer chunks = scan buffer (whole chunks).
Proof.
  revert buffer. induction chunks as [|c chunks IH]; intros buffer Hb.
  - reflexivity.
  - pose proof (chunk_scan buffer c Hb) as Hc.
    cbn [reads whole fold_right]. fold (whole chunks).
    rewrite scan_app, <- Hc. cbn [fst snd].
    rewrite IH.
    + by destruct (scan (chunk_rest buffer c) (whole chunks)).
    + replace (chunk_rest buffer c) with (snd (scan buffer c)) by (by rewrite <- Hc).
      by apply scan_rest_free.
Qed.

Lemma reads_whole (chunks : list string) :
  reads EmptyString chunks
  = (removelast (SSE.split_lines (whole chunks)),
     default EmptyString (last (SSE.split_lines (whole chunks)))).
Proof.
  rewrite reads_scan by done. rewrite scan_split.
  rewrite prepend_empty; [done|].
  by destruct (split_lines_cons (whole chunks)) as (p & ps & ->).
Qed.

(** X16: however a body is cut into chunks, the read loop sees, over all
    its turns, exactly the complete lines of the whole text, each once
    and in order, and is left with the text after the last newline as its
    buffer; two ways of cutting the same text give the same lines and the
    same buffer. *)
Theorem lines_do_not_depend_on_chunks (chunks chunks' : list string) :
  reads EmptyString chunks
  = (removelast (SSE.split_lines (whole chunks)),
     default EmptyString (last (SSE.split_lines (whole chunks))))
  /\ free_of SSE.newline (snd (reads EmptyString chunks))
  /\ (whole chunks = whole chunks' ->
      reads EmptyString chunks = reads EmptyString chunks').
Proof.
  split; [apply reads_whole|]. split.
  - rewrite reads_scan by done. by apply scan_rest_free.
  - intros Hw. by rewrite !reads_whole, Hw.
Qed.





(** X18: a chunk that brings no newline calls nothing and is kept whole
    at the end of the buffer; so the text after the last newline of a
    body is never delivered, whatever it is. *)
Theorem chunk_without_newline_is_buffered (cbs : SSE.SSECallbacks)
    (buffer chunk : string) :
  free_of SSE.newline buffer ->
  free_of SSE.newline chunk ->
  SSE.read_chunk JSON_parse cbs buffer chunk = (buffer +:+ chunk, []).
Proof.
  intros Hb Hc. rewrite read_chunk_lines.
  pose proof (chunk_scan buffer chunk Hb) as Hs.
  rewrite (scan_free buffer chunk Hc) in Hs.
  injection Hs as -> ->. done.
Qed.

End StreamLines.

Lemma chunk_without_newline_is_buffered_witness :
  SSE.read_chunk no_json every_callback "event: mes" "sage"
  = ("event: message", []).
Proof.
  apply (chunk_without_newline_is_buffered no_json every_callback
           "event: mes" "sage");
    vm_compute; repeat split; discriminate.
Defined.

(** * Further facts about connections *)

Section StreamClientMore.

Context {J : Type}.
Variable JSON_parse : string -> option J.
Variable url_valid : string -> bool.

Local Abbreviation step := (SSE.step JSON_parse url_valid).
Local Abbreviation run := (SSE.run JSON_parse url_valid).
Local Abbreviation connect := (SSE.connect url_valid).
Local Abbreviation Trace := (@SSE.Trace J).

(** A connection that was neither cancelled nor has ended. *)
Definition live (c : SSE.Connection) : Prop :=
  SSE.aborted c = false /\ SSE.phase c <> SSE.Finished.

(** A settling that the [try] block of [connect] answers with a throw:
    a rejected [fetch] or [read], a response that is not ok, a response
    without body. *)
Definition failing (ev : SSE.Event) (i : nat) (c : SSE.Connection) : Prop :=
  match ev, SSE.phase c with
  | SSE.FetchSettles j (SSE.FetchRejected e), SSE.Fetching =>
      j = i /\ e <> SSE.AbortError
  | SSE.FetchSettles j (SSE.FetchResponse ok _ has_body), SSE.Fetching =>
      j = i /\ (ok = false \/ has_body = false)
  | SSE.ReadSettles j (SSE.ReadRejected e), SSE.Reading _ =>
      j = i /\ e <> SSE.AbortError
  | _, _ => False
  end.

(** X19: any failure of a connection that was not cancelled, be it a
    rejected request, a response with an error status, a response without
    body or a read that breaks off in mid-stream, is answered in the same
    way while the counter is below 3: no callback is called, the
    counter goes up by one and a timer is set to run [connect] again with
    the same query and callbacks after 1000 ms times the counter. *)
Theorem failures_are_retried_silently (ev : SSE.Event) (i : nat)
    (c : SSE.Connection) (w : SSE.World) :
  SSE.connections w !! i = Some c ->
  SSE.aborted c = false ->
  failing ev i c ->
  SSE.retryCount w < 3 ->
  exists w',
    step ev w = Some (w', [])
    /\ SSE.retryCount w' = SSE.retryCount w + 1
    /\ SSE.timers w'
       = SSE.timers w
         ++ [ {| SSE.delay := 1000 * (SSE.retryCount w + 1);
                 SSE.timer_query := SSE.query c;
                 SSE.timer_callbacks := SSE.callbacks c |} ]
    /\ SSE.abortController w' = SSE.abortController w
    /\ SSE.phase <$> SSE.connections w' !! i = Some SSE.Finished.
Proof.
  intros Hc Ha Hf Hr.
  assert (Hcatch : forall e, e <> SSE.AbortError ->
            exists w',
              SSE.on_catch (J:=J) i c e (SSE.set_phase i SSE.Finished w) = (w', [])
              /\ SSE.retryCount w' = SSE.retryCount w + 1
              /\ SSE.timers w'
                 = SSE.timers w
                   ++ [ {| SSE.delay := 1000 * (SSE.retryCount w + 1);
                           SSE.timer_query := SSE.query c;
                           SSE.timer_callbacks := SSE.callbacks c |} ]
              /\ SSE.abortController w' = SSE.abortController w
              /\ SSE.phase <$> SSE.connections w' !! i = Some SSE.Finished).
  { intros e He. unfold SSE.on_catch.
    destruct e; [done| |];
      cbn [SSE.set_phase SSE.retryCount];
      (rewrite decide_True by (unfold SSE.maxRetries; lia));
      (eexists; split; [reflexivity|]);
      unfold SSE.set_phase;
      cbn [SSE.retryCount SSE.timers SSE.abortController SSE.connections];
      rewrite list_lookup_alter_eq, Hc; done. }
  unfold failing in Hf.
  destruct ev as [| |j r|j r|]; try done.
  - destruct (SSE.phase c) eqn:Hp; try (by destruct r).
    destruct r as [e|ok status has_body].
    + destruct Hf as [-> He].
      destruct (Hcatch e He) as (w' & Hw' & Hrest).
      exists w'. split; [|exact Hrest].
      simpl. unfold SSE.fetch_settles. rewrite Hc, Hp, Ha. by rewrite Hw'.
    + destruct Hf as [-> Hbad].
      cbn [SSE.step]. unfold SSE.fetch_settles. rewrite Hc, Hp, Ha.
      destruct ok; cbn [negb].
      * destruct Hbad as [Hb| ->]; [done|]. cbn [negb].
        destruct (Hcatch (SSE.JsError "No response body")) as (w' & Hw' & Hrest);
          [done|].
        exists w'. by rewrite Hw'.
      * destruct (Hcatch (SSE.JsError ("SSE connection failed: " +:+ pretty status)))
          as (w' & Hw' & Hrest); [done|].
        exists w'. by rewrite Hw'.
  - destruct (SSE.phase c) eqn:Hp; try (by destruct r).
    destruct r as [e| |]; try done.
    destruct Hf as [-> He].
    destruct (Hcatch e He) as (w' & Hw' & Hrest).
    exists w'. split; [|exact Hrest].
    simpl. unfold SSE.read_settles. rewrite Hc, Hp, Ha. by rewrite Hw'.
Qed.

(** What holds of a client whatever happened to it: the counter is 0 or
    1, a live connection is the one the client holds and is there only
    while the counter is 0, and every pending retry has the delay of a
    first retry. *)
Record tidy (w : SSE.World) : Prop := mkTidy {
  tidy_count : 0 <= SSE.retryCount w <= 1;
  tidy_live : forall i c,
    SSE.connections w !! i = Some c -> live c ->
    SSE.abortController w = Some i /\ SSE.retryCount w = 0;
  tidy_timers : Forall (fun t => SSE.delay t = 1000) (SSE.timers w);
}.

(** The callbacks made for payloads of the stream. *)
Definition data_call (x : @SSE.Invocation J) : Prop :=
  match x with
  | SSE.OnOpen | SSE.OnClose | SSE.OnError (SSE.Text _) => False
  | _ => True
  end.

(** An error callback made by the [catch] block for a failed connection. *)
Definition reports_failure (x : nat * @SSE.Invocation J) : Prop :=
  exists m, snd x = SSE.OnError (SSE.Text m).

Lemma process_line_data (cbs : SSE.SSECallbacks) (lines : list string) (l : string) :
  Forall data_call (SSE.process_line JSON_parse cbs lines l).
Proof.
  unfold SSE.process_line.
  destruct (SSE.startsWith "event: " l); [|constructor].
  destruct (SSE.line_after l lines) as [d|]; [|constructor].
  destruct (SSE.startsWith "data: " d); [|constructor].
  destruct (JSON_parse _).
  - unfold SSE.handleEvent, SSE.call.
    repeat (destruct (decide _);
            [destruct (_ cbs); repeat constructor|]).
    constructor.
  - unfold SSE.call. destruct (decide _); [|constructor].
    destruct (SSE.onMessage cbs); repeat constructor.
Qed.

Lemma read_chunk_data (cbs : SSE.SSECallbacks) (buffer chunk : string) :
  Forall data_call (snd (SSE.read_chunk JSON_parse cbs buffer chunk)).
Proof.
  rewrite read_chunk_lines. cbn [snd].
  generalize (chunk_lines buffer chunk) at 1. intros lines.
  induction (chunk_lines buffer chunk) as [|l ls IH]; [constructor|].
  simpl. apply Forall_app. split; [apply process_line_data|exact IH].
Qed.

Lemma by_connection_data (i : nat) (l : list (@SSE.Invocation J)) :
  Forall data_call l ->
  Forall (fun x => ~ reports_failure x) (SSE.by_connection i l).
Proof.
  induction 1 as [|x l Hx _ IH]; [constructor|].
  simpl. constructor; [|exact IH].
  intros [m Hm]. simpl in Hm. subst x. done.
Qed.

Lemma by_connection_close (i : nat) (b : bool) :
  Forall (fun x => ~ reports_failure x)
         (SSE.by_connection i (SSE.call (J:=J) b SSE.OnClose)).
Proof. destruct b; repeat constructor. by intros [m Hm]. Qed.

Lemma by_connection_open (i : nat) (b : bool) :
  Forall (fun x => ~ reports_failure x)
         (SSE.by_connection i (SSE.call (J:=J) b SSE.OnOpen)).
Proof. destruct b; repeat constructor. by intros [m Hm]. Qed.

Lemma tidy_fresh : tidy SSE.fresh.
Proof. split; simpl; [lia| |constructor]. intros i c Hc. by destruct i. Qed.

Lemma tidy_set_phase (i : nat) (p : SSE.Phase) (w : SSE.World) :
  tidy w ->
  (p = SSE.Finished
   \/ exists c, SSE.connections w !! i = Some c /\ SSE.phase c <> SSE.Finished) ->
  tidy (SSE.set_phase i p w).
Proof.
  intros [Hcount Hlive Ht] Hp. split; cbn [SSE.set_phase SSE.retryCount
    SSE.abortController SSE.connections SSE.timers]; [done| |done].
  intros j c Hj [Ha Hph].
  destruct (decide (i = j)) as [<-|Hne].
  - rewrite list_lookup_alter_eq in Hj.
    destruct (SSE.connections w !! i) as [c0|] eqn:Hc0; [|done].
    injection Hj as <-. simpl in Ha, Hph.
    destruct Hp as [->|(c1 & Hc1 & Hp1)]; [done|].
    injection Hc1 as <-. by apply (Hlive i c0).
  - rewrite list_lookup_alter_ne in Hj by done. by apply (Hlive j c).
Qed.

Lemma quiet_disconnect (w : SSE.World) (i : nat) (c : SSE.Connection) :
  tidy w ->
  SSE.connections (SSE.disconnect w) !! i = Some c -> ~ live c.
Proof.
  intros [_ Hlive _] Hi Hl. unfold SSE.disconnect in Hi. cbn [SSE.connections] in Hi.
  destruct (SSE.abortController w) as [j|] eqn:Hj.
  - destruct (decide (j = i)) as [->|Hne].
    + rewrite list_lookup_alter_eq in Hi.
      destruct (SSE.connections w !! i) as [c0|]; [|done].
      injection Hi as <-. by destruct Hl as [[=] _].
    + rewrite list_lookup_alter_ne in Hi by done.
      destruct (Hlive i c Hi Hl) as [[= ->] _]. done.
  - by destruct (Hlive i c Hi Hl) as [[=] _].
Qed.

Lemma tidy_disconnect (w : SSE.World) : tidy w -> tidy (SSE.disconnect w).
Proof.
  intros Hw. split.
  - simpl. lia.
  - intros i c Hi Hl. by destruct (quiet_disconnect w i c Hw Hi).
  - by destruct Hw.
Qed.

Lemma tidy_connect (settings : Api.Settings) (q : string)
    (cbs : SSE.SSECallbacks) (w : SSE.World) :
  tidy w -> tidy (connect settings q cbs w).
Proof.
  intros Hw. unfold SSE.connect. cbv zeta.
  destruct (url_valid _); [|by apply tidy_disconnect].
  split; cbn [SSE.retryCount SSE.abortController SSE.connections SSE.timers].
  - simpl. lia.
  - intros i c Hi Hl. split; [|done].
    apply lookup_app_Some in Hi as [Hi|[Hlen Hi]].
    + by destruct (quiet_disconnect w i c Hw Hi).
    + destruct (i - length (SSE.connections (SSE.disconnect w)))%nat eqn:Hd;
        [|done].
      f_equal. lia.
  - by destruct Hw.
Qed.

(** The [catch] block, entered for a connection that has just ended. *)
Lemma tidy_on_catch (i : nat) (c : SSE.Connection) (e : SSE.Thrown)
    (w w' : SSE.World) (t : Trace) :
  tidy w ->
  SSE.connections w !! i = Some c ->
  SSE.phase c <> SSE.Finished ->
  (e <> SSE.AbortError -> SSE.aborted c = false) ->
  SSE.on_catch i c e (SSE.set_phase i SSE.Finished w) = (w', t) ->
  tidy w' /\ Forall (fun x => ~ reports_failure x) t.
Proof.
  intros Hw Hc Hp Ha Hcatch.
  pose proof (tidy_set_phase i SSE.Finished w Hw (or_introl eq_refl)) as Hw1.
  assert (Hretry : e <> SSE.AbortError ->
            tidy w' /\ Forall (fun x => ~ reports_failure x) t).
  { intros He.
    destruct (tidy_live w Hw i c Hc (conj (Ha He) Hp)) as [Hctrl Hzero].
    assert (Hw' : w' = {| SSE.retryCount := 1;
                          SSE.abortController := SSE.abortController w;
                          SSE.connections :=
                            alter (SSE.with_phase SSE.Finished) i (SSE.connections w);
                          SSE.timers :=
                            SSE.timers w
                            ++ [ {| SSE.delay := 1000;
                                    SSE.timer_query := SSE.query c;
                                    SSE.timer_callbacks := SSE.callbacks c |} ] |}
                    /\ t = []).
    { unfold SSE.on_catch in Hcatch.
      destruct e; [done| |];
        cbn [SSE.set_phase SSE.retryCount SSE.abortController SSE.connections
             SSE.timers] in Hcatch;
        rewrite Hzero in Hcatch;
        rewrite decide_True in Hcatch by done;
        by injection Hcatch as <- <-. }
    destruct Hw' as [-> ->]. split; [|constructor].
    split; cbn [SSE.retryCount SSE.abortController SSE.connections SSE.timers].
    - lia.
    - intros j cj Hj Hl.
      destruct (tidy_live _ Hw1 j cj Hj Hl) as [Hctrl' _].
      cbn [SSE.set_phase SSE.abortController] in Hctrl'.
      rewrite Hctrl in Hctrl'. injection Hctrl' as <-.
      cbn [SSE.set_phase SSE.connections] in Hj.
      rewrite list_lookup_alter_eq, Hc in Hj. injection Hj as <-.
      by destruct Hl as [_ Hl].
    - apply Forall_app. split; [by destruct Hw|]. by repeat constructor. }
  destruct e; [|by apply Hretry..].
  unfold SSE.on_catch in Hcatch. injection Hcatch as <- <-.
  split; [exact Hw1|apply by_connection_close].
Qed.

Lemma tidy_step (ev : SSE.Event) (w w' : SSE.World) (t : Trace) :
  tidy w ->
  step ev w = Some (w', t) ->
  tidy w' /\ Forall (fun x => ~ reports_failure x) t.
Proof.
  intros Hw Hstep.
  destruct ev as [settings q cbs| |i r|i r|n settings]; cbn [SSE.step] in Hstep.
  - injection Hstep as <- <-. split; [by apply tidy_connect|constructor].
  - injection Hstep as <- <-. split; [by apply tidy_disconnect|constructor].
  - unfold SSE.fetch_settles in Hstep.
    destruct (SSE.connections w !! i) as [c|] eqn:Hc; [|done].
    destruct (SSE.phase c) eqn:Hp; try done.
    destruct (SSE.aborted c) eqn:Ha.
    + apply (inj Some) in Hstep.
      apply (tidy_on_catch i c SSE.AbortError w); try done. by rewrite Hp.
    + destruct r as [e|ok status has_body].
      * apply (inj Some) in Hstep.
        apply (tidy_on_catch i c e w); try done. by rewrite Hp.
      * destruct ok; cbn [negb] in Hstep.
        -- destruct has_body; cbn [negb] in Hstep.
           ++ injection Hstep as <- <-.
              split; [|apply by_connection_open].
              apply tidy_set_phase; [done|]. right. exists c. by rewrite Hp.
           ++ apply (inj Some) in Hstep.
              apply (tidy_on_catch i c (SSE.JsError "No response body") w);
                try done. by rewrite Hp.
        -- apply (inj Some) in Hstep.
           apply (tidy_on_catch i c
                    (SSE.JsError ("SSE connection failed: " +:+ pretty status)) w);
             try done. by rewrite Hp.
  - unfold SSE.read_settles in Hstep.
    destruct (SSE.connections w !! i) as [c|] eqn:Hc; [|done].
    destruct (SSE.phase c) as [|buffer|] eqn:Hp; try done.
    destruct (SSE.aborted c) eqn:Ha.
    + apply (inj Some) in Hstep.
      apply (tidy_on_catch i c SSE.AbortError w); try done. by rewrite Hp.
    + destruct r as [e| |text].
      * apply (inj Some) in Hstep.
        apply (tidy_on_catch i c e w); try done. by rewrite Hp.
      * injection Hstep as <- <-.
        split; [|apply by_connection_close].
        apply tidy_set_phase; [done|]. by left.
      * pose proof (read_chunk_data (SSE.callbacks c) buffer text) as Hdata.
        destruct (SSE.read_chunk JSON_parse (SSE.callbacks c) buffer text)
          as [buffer' out].
        injection Hstep as <- <-.
        split; [|by apply by_connection_data].
        apply tidy_set_phase; [done|]. right. exists c. by rewrite Hp.
  - unfold SSE.timer_fires in Hstep.
    destruct (SSE.timers w !! n) as [tm|]; [|done].
    injection Hstep as <- <-. split; [|constructor].
    apply tidy_connect. destruct Hw as [Hcount Hlive Ht].
    split; [done|done|]. cbn [SSE.timers]. by apply Forall_without.
Qed.

Lemma tidy_run (evs : list SSE.Event) (w w' : SSE.World) (tr : Trace) :
  tidy w ->
  run evs w = Some (w', tr) ->
  tidy w' /\ Forall (fun x => ~ reports_failure x) tr.
Proof.
  revert w tr. induction evs as [|ev evs IH]; intros w tr Hw Hrun.
  - injection Hrun as <- <-. split; [done|constructor].
  - cbn [SSE.run] in Hrun.
    destruct (step ev w) as [[w1 t1]|] eqn:Hstep; [|done].
    destruct (run evs w1) as [[w2 t2]|] eqn:Hrest; [|done].
    injection Hrun as <- <-.
    destruct (tidy_step ev w w1 t1 Hw Hstep) as [Hw1 Ht1].
    destruct (IH w1 t2 Hw1 Hrest) as [Hw2 Ht2].
    split; [done|]. by apply Forall_app.
Qed.

(** X20: whatever the page, the network and the timers do to a client
    made by [new SSEClient()], at every moment at most one of its
    connections is neither cancelled nor ended, and that one is the
    connection whose controller the client holds. *)
Theorem at_most_one_live_connection (evs : list SSE.Event) (w : SSE.World)
    (tr : Trace) (i j : nat) (ci cj : SSE.Connection) :
  run evs SSE.fresh = Some (w, tr) ->
  SSE.connections w !! i = Some ci -> live ci ->
  SSE.connections w !! j = Some cj -> live cj ->
  i = j /\ SSE.abortController w = Some i.
Proof.
  intros Hrun Hi Hli Hj Hlj.
  destruct (tidy_run evs SSE.fresh w tr tidy_fresh Hrun) as [Hw _].
  destruct (tidy_live w Hw i ci Hi Hli) as [Hci _].
  destruct (tidy_live w Hw j cj Hj Hlj) as [Hcj _].
  split; [congruence|done].
Qed.

(** X21: on a client made by [new SSEClient()] the retry counter never
    exceeds 1, every pending retry is due 1000 ms after its failure, and
    the error callback is never called with the message of a failed
    connection: the branch of [connect] that gives up is never taken. *)
Theorem failures_are_never_reported (evs : list SSE.Event) (w : SSE.World)
    (tr : Trace) :
  run evs SSE.fresh = Some (w, tr) ->
  0 <= SSE.retryCount w <= 1
  /\ Forall (fun t => SSE.delay t = 1000) (SSE.timers w)
  /\ forall i m, (i, SSE.OnError (SSE.Text m)) ∉ tr.
Proof.
  intros Hrun.
  destruct (tidy_run evs SSE.fresh w tr tidy_fresh Hrun) as [[Hc _ Ht] Htr].
  split; [done|]. split; [done|].
  intros i m Hin.
  apply (proj1 (Forall_forall _ _) Htr _ Hin). by exists m.
Qed.

(** Connection [i] has ended. *)
Definition finished (i : nat) (w : SSE.World) : Prop :=
  SSE.phase <$> SSE.connections w !! i = Some SSE.Finished.

Lemma finished_disconnect (i : nat) (w : SSE.World) :
  finished i w -> finished i (SSE.disconnect w).
Proof.
  unfold finished, SSE.disconnect. cbn [SSE.connections]. intros Hf.
  destruct (SSE.abortController w) as [j|]; [|done].
  destruct (decide (j = i)) as [->|Hne].
  - rewrite list_lookup_alter_eq.
    destruct (SSE.connections w !! i) as [c|]; [|done]. done.
  - by rewrite list_lookup_alter_ne.
Qed.

Lemma finished_connect (i : nat) (settings : Api.Settings) (q : string)
    (cbs : SSE.SSECallbacks) (w : SSE.World) :
  finished i w -> finished i (connect settings q cbs w).
Proof.
  intros Hf%finished_disconnect. unfold SSE.connect. cbv zeta.
  destruct (url_valid _); [|done].
  unfold finished in *. cbn [SSE.connections].
  destruct (SSE.connections (SSE.disconnect w) !! i) as [c|] eqn:Hc; [|done].
  by rewrite (lookup_app_l_Some _ _ _ _ Hc).
Qed.

Lemma finished_set_phase (i j : nat) (p : SSE.Phase) (w : SSE.World) :
  i <> j -> finished i w -> finished i (SSE.set_phase j p w).
Proof.
  intros Hne Hf. unfold finished, SSE.set_phase. cbn [SSE.connections].
  by rewrite list_lookup_alter_ne.
Qed.

Lemma on_catch_shape (j : nat) (c : SSE.Connection) (e : SSE.Thrown)
    (w : SSE.World) :
  SSE.connections (fst (SSE.on_catch (J:=J) j c e w)) = SSE.connections w
  /\ exists pre close,
       snd (SSE.on_catch (J:=J) j c e w)
       = SSE.by_connection j (pre ++ SSE.call close SSE.OnClose)
       /\ (SSE.OnClose (J:=J)) ∉ pre.
Proof.
  unfold SSE.on_catch. destruct e.
  - split; [done|]. exists [], (SSE.onClose (SSE.callbacks c)).
    split; [done|]. apply not_elem_of_nil.
  - destruct (decide _).
    + split; [done|]. exists [], false. split; [done|]. apply not_elem_of_nil.
    + split; [done|]. eexists _, _. split; [reflexivity|].
      unfold SSE.call. destruct (SSE.onError _); [|apply not_elem_of_nil].
      by intros [=]%list_elem_of_singleton.
  - destruct (decide _).
    + split; [done|]. exists [], false. split; [done|]. apply not_elem_of_nil.
    + split; [done|]. eexists _, _. split; [reflexivity|].
      unfold SSE.call. destruct (SSE.onError _); [|apply not_elem_of_nil].
      by intros [=]%list_elem_of_singleton.
Qed.

(** The calls of one step are all made for one connection, which was
    not ended before; if there is a close among them, it is the last of
    them and the connection is ended by the step. *)
Lemma step_calls (ev : SSE.Event) (w w' : SSE.World) (t : Trace) :
  step ev w = Some (w', t) ->
  (forall i, finished i w -> finished i w' /\ Forall (fun x => fst x <> i) t)
  /\ (forall i, (i, SSE.OnClose) ∈ t ->
        finished i w'
        /\ exists pre, t = pre ++ [(i, SSE.OnClose)] /\ (i, SSE.OnClose) ∉ pre).
Proof.
  intros Hstep.
  assert (Hsettle : forall j c pre close w1,
            SSE.connections w !! j = Some c ->
            SSE.phase c <> SSE.Finished ->
            finished j w1 ->
            (forall i, i <> j -> finished i w -> finished i w1) ->
            SSE.connections w' = SSE.connections w1 ->
            t = SSE.by_connection j (pre ++ SSE.call close SSE.OnClose) ->
            SSE.OnClose ∉ pre ->
            (forall i, finished i w -> finished i w' /\ Forall (fun x => fst x <> i) t)
            /\ (forall i, (i, SSE.OnClose) ∈ t ->
                  finished i w'
                  /\ exists pre0, t = pre0 ++ [(i, SSE.OnClose)]
                                  /\ (i, SSE.OnClose) ∉ pre0)).
  { intros j c pre close w1 Hc Hp Hj Hkeep Hconn -> Hpre.
    assert (Hne : forall i, finished i w -> i <> j).
    { intros i Hf ->. unfold finished in Hf. rewrite Hc in Hf.
      by injection Hf. }
    split.
    - intros i Hf. split.
      + unfold finished. rewrite Hconn. by apply Hkeep, Hf; apply Hne.
      + apply Forall_forall. intros x Hx.
        unfold SSE.by_connection in Hx.
        apply list_elem_of_In, in_map_iff in Hx as (y & <- & _).
        simpl. intros <-. by apply (Hne j).
    - intros i Hin. unfold SSE.by_connection in Hin.
      apply list_elem_of_In, in_map_iff in Hin as (y & [= <- ->] & Hy).
      apply list_elem_of_In, elem_of_app in Hy as [Hy|Hy]; [done|].
      unfold SSE.call in *. destruct close; [|by apply elem_of_nil in Hy].
      split; [unfold finished; by rewrite Hconn|].
      exists (SSE.by_connection j pre). unfold SSE.by_connection.
      rewrite map_app. split; [done|].
      intros Hx. apply list_elem_of_In, in_map_iff in Hx as (y & [= ->] & Hy').
      by apply list_elem_of_In in Hy'. }
  assert (Hquiet : t = [] ->
            (forall i, finished i w -> finished i w') ->
            (forall i, finished i w -> finished i w' /\ Forall (fun x => fst x <> i) t)
            /\ (forall i, (i, SSE.OnClose) ∈ t ->
                  finished i w'
                  /\ exists pre0, t = pre0 ++ [(i, SSE.OnClose)]
                                  /\ (i, SSE.OnClose) ∉ pre0)).
  { intros -> Hkeep. split.
    - intros i Hf. split; [by apply Hkeep|constructor].
    - intros i Hin. by apply elem_of_nil in Hin. }
  assert (Hended : forall j c, SSE.connections w !! j = Some c ->
            finished j (SSE.set_phase j SSE.Finished w)).
  { intros j c Hc. unfold finished, SSE.set_phase. cbn [SSE.connections].
    by rewrite list_lookup_alter_eq, Hc. }
  assert (Hcatch : forall j c e,
            SSE.connections w !! j = Some c ->
            SSE.phase c <> SSE.Finished ->
            SSE.on_catch j c e (SSE.set_phase j SSE.Finished w) = (w', t) ->
            (forall i, finished i w -> finished i w' /\ Forall (fun x => fst x <> i) t)
            /\ (forall i, (i, SSE.OnClose) ∈ t ->
                  finished i w'
                  /\ exists pre0, t = pre0 ++ [(i, SSE.OnClose)]
                                  /\ (i, SSE.OnClose) ∉ pre0)).
  { intros j c e Hc Hp Hcatch.
    destruct (on_catch_shape j c e (SSE.set_phase j SSE.Finished w))
      as (Hconn & pre & close & Ht & Hpre).
    rewrite Hcatch in Hconn, Ht. cbn [fst snd] in Hconn, Ht.
    apply (Hsettle j c pre close (SSE.set_phase j SSE.Finished w)); try done.
    - by apply (Hended j c).
    - intros i Hne Hf. by apply finished_set_phase. }
  destruct ev as [settings q cbs| |j r|j r|n settings]; cbn [SSE.step] in Hstep.
  - injection Hstep as <- <-. apply Hquiet; [done|].
    intros i. apply finished_connect.
  - injection Hstep as <- <-. apply Hquiet; [done|].
    intros i. apply finished_disconnect.
  - unfold SSE.fetch_settles in Hstep.
    destruct (SSE.connections w !! j) as [c|] eqn:Hc; [|done].
    destruct (SSE.phase c) eqn:Hp; try done.
    destruct (SSE.aborted c).
    + apply (inj Some) in Hstep. apply (Hcatch j c SSE.AbortError); try done.
      by rewrite Hp.
    + destruct r as [e|ok status has_body].
      * apply (inj Some) in Hstep. apply (Hcatch j c e); try done. by rewrite Hp.
      * destruct ok; cbn [negb] in Hstep.
        -- destruct has_body; cbn [negb] in Hstep.
           ++ injection Hstep as <- <-.
              assert (Hne : forall i, finished i w -> i <> j).
              { intros i Hf ->. unfold finished in Hf. rewrite Hc in Hf.
                simpl in Hf. by rewrite Hp in Hf. }
              split.
              ** intros i Hf. split; [apply finished_set_phase; auto|].
                 apply Forall_forall. intros x Hx.
                 unfold SSE.by_connection in Hx.
                 apply list_elem_of_In, in_map_iff in Hx as (y & <- & _).
                 simpl. intros <-. by apply (Hne j).
              ** intros i Hin. unfold SSE.by_connection, SSE.call in Hin.
                 destruct (SSE.onOpen _); simpl in Hin;
                   [by apply list_elem_of_singleton in Hin|by apply elem_of_nil in Hin].
           ++ apply (inj Some) in Hstep.
              apply (Hcatch j c (SSE.JsError "No response body")); try done.
              by rewrite Hp.
        -- apply (inj Some) in Hstep.
           apply (Hcatch j c
                    (SSE.JsError ("SSE connection failed: " +:+ pretty status)));
             try done. by rewrite Hp.
  - unfold SSE.read_settles in Hstep.
    destruct (SSE.connections w !! j) as [c|] eqn:Hc; [|done].
    destruct (SSE.phase c) as [|buffer|] eqn:Hp; try done.
    destruct (SSE.aborted c).
    + apply (inj Some) in Hstep. apply (Hcatch j c SSE.AbortError); try done.
      by rewrite Hp.
    + destruct r as [e| |text].
      * apply (inj Some) in Hstep. apply (Hcatch j c e); try done. by rewrite Hp.
      * injection Hstep as <- <-.
        apply (Hsettle j c [] (SSE.onClose (SSE.callbacks c))
                 (SSE.set_phase j SSE.Finished w)); try done.
        -- by rewrite Hp.
        -- by apply (Hended j c).
        -- intros i Hne Hf. by apply finished_set_phase.
        -- apply not_elem_of_nil.
      * pose proof (read_chunk_data (SSE.callbacks c) buffer text) as Hdata.
        destruct (SSE.read_chunk JSON_parse (SSE.callbacks c) buffer text)
          as [buffer' out].
        injection Hstep as <- <-. cbn [snd] in Hdata.
        assert (Hne : forall i, finished i w -> i <> j).
        { intros i Hf ->. unfold finished in Hf. rewrite Hc in Hf.
          simpl in Hf. by rewrite Hp in Hf. }
        split.
        -- intros i Hf. split; [apply finished_set_phase; auto|].
           apply Forall_forall. intros x Hx.
           unfold SSE.by_connection in Hx.
           apply list_elem_of_In, in_map_iff in Hx as (y & <- & _).
           simpl. intros <-. by apply (Hne j).
        -- intros i Hin. unfold SSE.by_connection in Hin.
           apply list_elem_of_In, in_map_iff in Hin as (y & [= <- ->] & Hy).
           apply list_elem_of_In in Hy.
           by destruct (proj1 (Forall_forall _ _) Hdata _ Hy).
  - unfold SSE.timer_fires in Hstep.
    destruct (SSE.timers w !! n) as [tm|]; [|done].
    injection Hstep as <- <-. apply Hquiet; [done|].
    intros i Hf. by apply finished_connect.
Qed.

Lemma run_after_finished (evs : list SSE.Event) (w w' : SSE.World) (tr : Trace)
    (i : nat) :
  run evs w = Some (w', tr) ->
  finished i w ->
  Forall (fun x => fst x <> i) tr.
Proof.
  revert w tr. induction evs as [|ev evs IH]; intros w tr Hrun Hf.
  - injection Hrun as <- <-. constructor.
  - cbn [SSE.run] in Hrun.
    destruct (step ev w) as [[w1 t1]|] eqn:Hstep; [|done].
    destruct (run evs w1) as [[w2 t2]|] eqn:Hrest; [|done].
    injection Hrun as <- <-.
    destruct (step_calls ev w w1 t1 Hstep) as [Hkeep _].
    destruct (Hkeep i Hf) as [Hf1 Ht1].
    apply Forall_app. split; [done|]. by apply (IH w1).
Qed.

Lemma last_occurrence {A : Type} (x : A) (pre t1 l : list A) :
  x ∉ pre -> t1 ++ x :: l = pre ++ [x] -> l = [].
Proof.
  revert t1. induction pre as [|a pre IH]; intros t1 Hpre Heq.
  - destruct t1 as [|b t1]; simpl in Heq.
    + by injection Heq.
    + injection Heq as _ Heq. by destruct t1.
  - destruct t1 as [|b t1]; simpl in Heq.
    + injection Heq as -> _. destruct Hpre. apply elem_of_cons. by left.
    + injection Heq as _ Heq. apply (IH t1); [|done].
      intros Hx. apply Hpre. apply elem_of_cons. by right.
Qed.

(** X22: the close callback is the last thing a connection does: in
    every run of a client, once close has been called for a connection,
    no callback of any kind is called for that connection again, so
    close is called at most once per connection. *)
Theorem close_is_final (evs : list SSE.Event) (w w' : SSE.World)
    (tr t1 t2 : Trace) (i : nat) :
  run evs w = Some (w', tr) ->
  tr = t1 ++ (i, SSE.OnClose) :: t2 ->
  Forall (fun x => fst x <> i) t2.
Proof.
  revert w tr t1. induction evs as [|ev evs IH]; intros w tr t1 Hrun Htr.
  - injection Hrun as <- <-. by destruct t1.
  - cbn [SSE.run] in Hrun.
    destruct (step ev w) as [[w1 s1]|] eqn:Hstep; [|done].
    destruct (run evs w1) as [[w2 s2]|] eqn:Hrest; [|done].
    injection Hrun as <- <-.
    apply app_eq_app in Htr as [l [[Hs1 Hs2]|[Ht1 Hs2]]].
    + destruct l as [|x l].
      * simpl in Hs2. apply (IH w1 s2 [] Hrest). by rewrite <- Hs2.
      * simpl in Hs2. injection Hs2 as Hx Ht2. subst x t2.
        destruct (step_calls ev w w1 s1 Hstep) as [_ Hclose].
        destruct (Hclose i) as (Hf & pre & Hpre & Hnot).
        { rewrite Hs1. apply elem_of_app. right. apply elem_of_cons. by left. }
        rewrite Hpre in Hs1. symmetry in Hs1.
        apply last_occurrence in Hs1 as ->; [|done].
        simpl. by apply (run_after_finished evs w1 w2).
    + apply (IH w1 s2 l Hrest Hs2).
Qed.

(** Connection [i] is in its read loop, not cancelled, with the buffer
    [b]. *)
Definition reading (i : nat) (cbs : SSE.SSECallbacks) (b : string)
    (w : SSE.World) : Prop :=
  exists c,
    SSE.connections w !! i = Some c
    /\ SSE.callbacks c = cbs
    /\ SSE.aborted c = false
    /\ SSE.phase c = SSE.Reading b.

Lemma reading_chunks (i : nat) (cbs : SSE.SSECallbacks) (b : string)
    (chunks : list string) (w : SSE.World) :
  reading i cbs b w ->
  exists w' b',
    run (map (fun ch => SSE.ReadSettles i (SSE.ReadChunk ch)) chunks) w
    = Some (w', SSE.by_connection i (SSE.read_loop JSON_parse cbs b chunks))
    /\ reading i cbs b' w'
    /\ SSE.timers w' = SSE.timers w
    /\ SSE.retryCount w' = SSE.retryCount w.
Proof.
  revert b w. induction chunks as [|ch chunks IH]; intros b w Hr.
  - exists w, b. done.
  - destruct Hr as (c & Hc & Hcb & Ha & Hp).
    cbn [map SSE.run SSE.step]. unfold SSE.read_settles.
    rewrite Hc, Hp, Ha, Hcb.
    cbn [SSE.read_loop].
    destruct (SSE.read_chunk JSON_parse cbs b ch) as [b1 out].
    destruct (IH b1 (SSE.set_phase i (SSE.Reading b1) w)) as (w' & b' & Hrun & Hr' & Ht & Hrc).
    { exists (SSE.with_phase (SSE.Reading b1) c).
      unfold SSE.set_phase. cbn [SSE.connections].
      rewrite list_lookup_alter_eq, Hc. done. }
    exists w', b'. rewrite Hrun.
    unfold SSE.by_connection. rewrite map_app. done.
Qed.

(** X23: a stream that runs undisturbed, from [connect] over an ok
    response and any chunks to the end of the body, calls, for its
    connection and in this order, open, then what the parser dispatches
    for the chunks, then close; it sets no timer and leaves the counter
    at 0. *)
Theorem undisturbed_stream (settings : Api.Settings) (q : string)
    (cbs : SSE.SSECallbacks) (status : Z) (chunks : list string) (w : SSE.World) :
  url_valid (Api.apiBaseUrl settings +:+ "/chat/stream") = true ->
  let i := length (SSE.connections w) in
  exists w',
    run (SSE.Connect settings q cbs
         :: SSE.FetchSettles i (SSE.FetchResponse true status true)
         :: map (fun ch => SSE.ReadSettles i (SSE.ReadChunk ch)) chunks
         ++ [SSE.ReadSettles i SSE.ReadDone]) w
    = Some (w', SSE.by_connection i
                  (SSE.call (SSE.onOpen cbs) SSE.OnOpen
                   ++ SSE.dispatched JSON_parse cbs chunks
                   ++ SSE.call (SSE.onClose cbs) SSE.OnClose))
    /\ finished i w'
    /\ SSE.timers w' = SSE.timers w
    /\ SSE.retryCount w' = 0.
Proof.
  intros Hurl i.
  destruct (connect_attempting url_valid settings q cbs w Hurl) as [Hatt Ht0].
  fold i in Hatt. destruct Hatt as (Hr0 & _ & _ & Hc0).
  set (w0 := connect settings q cbs w) in *.
  assert (Hread : reading i cbs EmptyString
                    (SSE.set_phase i (SSE.Reading EmptyString) w0)).
  { eexists. unfold SSE.set_phase. cbn [SSE.connections].
    rewrite list_lookup_alter_eq, Hc0. done. }
  destruct (reading_chunks i cbs EmptyString chunks _ Hread)
    as (w1 & b1 & Hrun1 & (c1 & Hc1 & Hcb1 & Ha1 & Hp1) & Ht1 & Hr1).
  exists (SSE.set_phase i SSE.Finished w1).
  split.
  - cbn [SSE.run SSE.step]. fold w0.
    unfold SSE.fetch_settles at 1. rewrite Hc0. cbn [SSE.phase started SSE.aborted negb
      SSE.callbacks].
    rewrite run_app, Hrun1.
    cbn [SSE.run SSE.step]. unfold SSE.read_settles. rewrite Hc1, Hp1, Ha1, Hcb1.
    unfold SSE.by_connection, SSE.dispatched.
    by rewrite !map_app, app_nil_r.
  - split.
    { unfold finished, SSE.set_phase. cbn [SSE.connections].
      by rewrite list_lookup_alter_eq, Hc1. }
    cbn [SSE.set_phase SSE.timers SSE.retryCount] in *.
    split; congruence.
Qed.

End StreamClientMore.

Lemma failures_are_retried_silently_witness :
  exists w',
    SSE.step no_json accept_all (SSE.ReadSettles 0 (SSE.ReadRejected SSE.NonError))
      streaming
    = Some (w', [])
    /\ SSE.retryCount w' = 1.
Proof.
  destruct (failures_are_retried_silently no_json accept_all
              (SSE.ReadSettles 0 (SSE.ReadRejected SSE.NonError)) 0
              (SSE.with_phase (SSE.Reading EmptyString)
                 (started remote "What is RAG?" every_callback))
              streaming eq_refl eq_refl)
    as (w' & Hstep & Hcount & _).
  - split; [reflexivity|discriminate].
  - reflexivity.
  - exists w'. split; [exact Hstep|exact Hcount].
Defined.

(** A run in which a stream is cancelled by a second [connect], which then
    fails. *)
Definition busy_run : list SSE.Event :=
  [SSE.Connect remote "a" every_callback;
   SSE.FetchSettles 0 (SSE.FetchResponse true 200 true);
   SSE.Connect remote "b" every_callback;
   SSE.ReadSettles 0 SSE.ReadDone;
   SSE.FetchSettles 1 (SSE.FetchResponse false 503 true)].

Definition busy_end : SSE.World :=
  default SSE.fresh (fst <$> SSE.run no_json accept_all busy_run SSE.fresh).

Definition busy_trace : @SSE.Trace unit :=
  default [] (snd <$> SSE.run no_json accept_all busy_run SSE.fresh).

Lemma busy_run_runs :
  SSE.run no_json accept_all busy_run SSE.fresh = Some (busy_end, busy_trace).
Proof. reflexivity. Qed.

Lemma streaming_live :
  live (SSE.with_phase (SSE.Reading EmptyString)
          (started remote "What is RAG?" every_callback)).
Proof. split; [reflexivity|discriminate]. Qed.

Lemma at_most_one_live_connection_witness :
  SSE.connections streaming !! 0%nat
  = Some (SSE.with_phase (SSE.Reading EmptyString)
            (started remote "What is RAG?" every_callback))
  /\ 0%nat = 0%nat
  /\ SSE.abortController streaming = Some 0%nat.
Proof.
  split; [reflexivity|].
  apply (at_most_one_live_connection no_json accept_all
           [SSE.Connect remote "What is RAG?" every_callback;
            SSE.FetchSettles 0 (SSE.FetchResponse true 200 true)]
           streaming [(0%nat, SSE.OnOpen)] 0 0
           (SSE.with_phase (SSE.Reading EmptyString)
              (started remote "What is RAG?" every_callback))
           (SSE.with_phase (SSE.Reading EmptyString)
              (started remote "What is RAG?" every_callback))
           eq_refl eq_refl streaming_live eq_refl streaming_live).
Defined.

Lemma failures_are_never_reported_witness :
  SSE.retryCount busy_end = 1
  /\ forall i m, (i, SSE.OnError (SSE.Text m)) ∉ busy_trace.
Proof.
  split; [reflexivity|].
  apply (failures_are_never_reported no_json accept_all busy_run busy_end busy_trace
           busy_run_runs).
Defined.

(** A run in which a stream is cancelled by a second [connect], whose
    stream then opens. *)
Definition handover_run : list SSE.Event :=
  [SSE.Connect remote "a" every_callback;
   SSE.FetchSettles 0 (SSE.FetchResponse true 200 true);
   SSE.Connect remote "b" every_callback;
   SSE.ReadSettles 0 SSE.ReadDone;
   SSE.FetchSettles 1 (SSE.FetchResponse true 200 true)].

Definition handover_end : SSE.World :=
  default SSE.fresh (fst <$> SSE.run no_json accept_all handover_run SSE.fresh).

Lemma handover_run_runs :
  SSE.run no_json accept_all handover_run SSE.fresh
  = Some (handover_end,
          [(0%nat, SSE.OnOpen); (0%nat, SSE.OnClose); (1%nat, SSE.OnOpen)]).
Proof. reflexivity. Qed.

Lemma close_is_final_witness :
  Forall (fun x : nat * @SSE.Invocation unit => fst x <> 0%nat)
    [(1%nat, SSE.OnOpen)].
Proof.
  apply (close_is_final no_json accept_all handover_run SSE.fresh handover_end
           [(0%nat, SSE.OnOpen); (0%nat, SSE.OnClose); (1%nat, SSE.OnOpen)]
           [(0%nat, SSE.OnOpen)] [(1%nat, SSE.OnOpen)] 0 handover_run_runs).
  reflexivity.
Defined.

Lemma undisturbed_stream_witness :
  exists w',
    SSE.run no_json accept_all
      [SSE.Connect remote "q" every_callback;
       SSE.FetchSettles 0 (SSE.FetchResponse true 200 true);
       SSE.ReadSettles 0 (SSE.ReadChunk (line "event: message" +:+ line "data: Hi"));
       SSE.ReadSettles 0 SSE.ReadDone] SSE.fresh
    = Some (w', [(0%nat, SSE.OnOpen);
                 (0%nat, SSE.OnMessage (SSE.Text "Hi"));
                 (0%nat, SSE.OnClose)]).
Proof.
  destruct (undisturbed_stream no_json accept_all remote "q" every_callback 200
              [line "event: message" +:+ line "data: Hi"] SSE.fresh eq_refl)
    as (w' & Hrun & _).
  exists w'. exact Hrun.
Defined.
